(** * TodoListTS: the task list of [src/app.ts]

    A shallow embedding of the script [app.ts] and the proofs of the
    properties its specification states.

    Conventions of the embedding.
    - A JavaScript string is its sequence of UTF-16 code units, a [list N].
    - The numbers of the program ([id], [nextId]) are doubles of integer
      value; they are taken in [Z].  Comparison and [Math.max] are exact on
      them; the one sum of the script, [+ 1], is the addition of doubles,
      which rounds: [JSNumber.add].
    - The global variables, the two DOM nodes the script reads and writes,
      [localStorage] and the calls observable from outside ([alert],
      [setItem], the rebuilding of the list) are the fields of one record,
      [World], passed through every function.
    - [JSON.stringify] and [JSON.parse] belong to the platform; they are
      modelled after ECMA-262 (sections 25.5.1 and 25.5.2). *)

From Stdlib Require Import ZArith NArith List String Ascii Decimal DecimalFacts DecimalPos DecimalN Lia.
From stdpp Require Import base option list gmap.

Abbreviation jsstring := (list N).

(** [js "abc"]: the code units of an ASCII literal of the source. *)
Definition js (s : string) : jsstring :=
  N_of_ascii <$> list_ascii_of_string s.

(** ** [String.prototype.trim] *)

Module JSString.
Local Open Scope N_scope.

(** WhiteSpace and LineTerminator code points of ECMA-262 (all of them in
    the basic plane, so one code unit each). *)
Definition is_white_space (c : N) : bool :=
  (c =? 0x09) || (c =? 0x0A) || (c =? 0x0B) || (c =? 0x0C) || (c =? 0x0D)
  || (c =? 0x20) || (c =? 0xA0) || (c =? 0x1680)
  || ((0x2000 <=? c) && (c <=? 0x200A))
  || (c =? 0x2028) || (c =? 0x2029) || (c =? 0x202F) || (c =? 0x205F)
  || (c =? 0x3000) || (c =? 0xFEFF).

Fixpoint trimStart (s : jsstring) : jsstring :=
  match s with
  | [] => []
  | c :: r => if is_white_space c then trimStart r else s
  end.

Definition trimEnd (s : jsstring) : jsstring := rev (trimStart (rev s)).

Definition trim (s : jsstring) : jsstring := trimEnd (trimStart s).

End JSString.

(** ** JSON *)

Module JSON.
Local Open Scope N_scope.

(** *** Values *)

#[local] Set Warnings "-register-all".

Inductive json : Type :=
| JNull
| JBool (b : bool)
| JNum (n : Z)                  (* a numeral without fraction or exponent *)
| JNumLit (lit : jsstring)      (* any other numeral, kept as written: its
                                   value is not an integer of the model *)
| JStr (s : jsstring)
| JArr (elems : list json)
| JObj (props : list (jsstring * json)).

(** *** Printing: QuoteJSONString and Number::toString *)

Definition hexdigit (d : N) : N := if d <? 10 then 48 + d else 87 + d.

(** UnicodeEscape: backslash, [u], four lowercase hexadecimal digits. *)
Definition UnicodeEscape (c : N) : jsstring :=
  [92; 117; hexdigit (c / 4096 mod 16); hexdigit (c / 256 mod 16);
   hexdigit (c / 16 mod 16); hexdigit (c mod 16)].

Definition is_leading_surrogate (c : N) : bool := (0xD800 <=? c) && (c <=? 0xDBFF).
Definition is_trailing_surrogate (c : N) : bool := (0xDC00 <=? c) && (c <=? 0xDFFF).

(** One code point that is not a surrogate pair. *)
Definition quote_unit (c : N) : jsstring :=
  if c =? 8 then [92; 98]              (* \b *)
  else if c =? 9 then [92; 116]        (* \t *)
  else if c =? 10 then [92; 110]       (* \n *)
  else if c =? 12 then [92; 102]       (* \f *)
  else if c =? 13 then [92; 114]       (* \r *)
  else if c =? 34 then [92; 34]        (* \ quote *)
  else if c =? 92 then [92; 92]        (* \\ *)
  else if (c <? 32) || is_leading_surrogate c || is_trailing_surrogate c
       then UnicodeEscape c
  else [c].

(** The code points of the string in turn: a leading surrogate followed by
    a trailing one is one code point and is copied; a lone surrogate is
    escaped. *)
Fixpoint quote_units (s : jsstring) : jsstring :=
  match s with
  | [] => []
  | c :: r =>
      if is_leading_surrogate c then
        match r with
        | d :: r' =>
            if is_trailing_surrogate d then c :: d :: quote_units r'
            else UnicodeEscape c ++ quote_units r
        | [] => UnicodeEscape c
        end
      else quote_unit c ++ quote_units r
  end.

Definition QuoteJSONString (s : jsstring) : jsstring :=
  34 :: quote_units s ++ [34].

Fixpoint uint_chars (d : uint) : jsstring :=
  match d with
  | Nil => []
  | D0 u => 48 :: uint_chars u
  | D1 u => 49 :: uint_chars u
  | D2 u => 50 :: uint_chars u
  | D3 u => 51 :: uint_chars u
  | D4 u => 52 :: uint_chars u
  | D5 u => 53 :: uint_chars u
  | D6 u => 54 :: uint_chars u
  | D7 u => 55 :: uint_chars u
  | D8 u => 56 :: uint_chars u
  | D9 u => 57 :: uint_chars u
  end.

(** Number::toString on an integer: its decimal digits, behind a minus sign
    when negative. *)
Definition Number_toString (n : Z) : jsstring :=
  match n with
  | Z0 => [48]
  | Zpos p => uint_chars (Pos.to_uint p)
  | Zneg p => 45 :: uint_chars (Pos.to_uint p)
  end.

Definition Boolean_toString (b : bool) : jsstring :=
  if b then [116; 114; 117; 101] else [102; 97; 108; 115; 101].

Fixpoint join_comma (parts : list jsstring) : jsstring :=
  match parts with
  | [] => []
  | [p] => p
  | p :: ps => p ++ 44 :: join_comma ps
  end.

(** SerializeJSONObject without indentation, on the properties already
    serialized: each key quoted, a colon, the value; commas between. *)
Definition SerializeJSONObject (props : list (jsstring * jsstring)) : jsstring :=
  123 :: join_comma ((fun kv => QuoteJSONString (fst kv) ++ 58 :: snd kv) <$> props)
      ++ [125].

(** SerializeJSONArray without indentation, on the elements already
    serialized. *)
Definition SerializeJSONArray (elems : list jsstring) : jsstring :=
  91 :: join_comma elems ++ [93].

(** *** Parsing *)

Inductive parsed (A : Type) : Type :=
| Parsed (a : A) (rest : jsstring)
| SyntaxError
| OutOfFuel.
Arguments Parsed {A} a rest.
Arguments SyntaxError {A}.
Arguments OutOfFuel {A}.

Definition pmap {A B} (f : A -> B) (p : parsed A) : parsed B :=
  match p with
  | Parsed a r => Parsed (f a) r
  | SyntaxError => SyntaxError
  | OutOfFuel => OutOfFuel
  end.

(** JSON white space: tab, line feed, carriage return, space. *)
Definition is_json_ws (c : N) : bool :=
  (c =? 9) || (c =? 10) || (c =? 13) || (c =? 32).

Fixpoint skip_ws (l : jsstring) : jsstring :=
  match l with
  | [] => []
  | c :: r => if is_json_ws c then skip_ws r else l
  end.

Definition is_digit (c : N) : bool := (48 <=? c) && (c <=? 57).

Definition hexval (c : N) : option N :=
  if (48 <=? c) && (c <=? 57) then Some (c - 48)
  else if (97 <=? c) && (c <=? 102) then Some (c - 87)
  else if (65 <=? c) && (c <=? 70) then Some (c - 55)
  else None.

Definition hex4 (h1 h2 h3 h4 : N) : option N :=
  match hexval h1, hexval h2, hexval h3, hexval h4 with
  | Some a, Some b, Some c, Some d => Some (((a * 16 + b) * 16 + c) * 16 + d)
  | _, _, _, _ => None
  end.

(** The character after a backslash, [u] apart. *)
Definition unescape (e : N) : option N :=
  if e =? 34 then Some 34              (* quote *)
  else if e =? 92 then Some 92         (* \ *)
  else if e =? 47 then Some 47         (* / *)
  else if e =? 98 then Some 8          (* b *)
  else if e =? 102 then Some 12        (* f *)
  else if e =? 110 then Some 10        (* n *)
  else if e =? 114 then Some 13        (* r *)
  else if e =? 116 then Some 9         (* t *)
  else None.

(** The characters of a string, after its opening quote, up to and
    including its closing quote. *)
Fixpoint parse_chars (l : jsstring) : parsed jsstring :=
  match l with
  | [] => SyntaxError
  | c :: r =>
      if c =? 34 then Parsed [] r
      else if c =? 92 then
        match r with
        | [] => SyntaxError
        | e :: r1 =>
            if e =? 117 then
              match r1 with
              | h1 :: h2 :: h3 :: h4 :: r2 =>
                  match hex4 h1 h2 h3 h4 with
                  | Some u => pmap (cons u) (parse_chars r2)
                  | None => SyntaxError
                  end
              | _ => SyntaxError
              end
            else
              match unescape e with
              | Some u => pmap (cons u) (parse_chars r1)
              | None => SyntaxError
              end
        end
      else if c <? 32 then SyntaxError
      else pmap (cons c) (parse_chars r)
  end.

Fixpoint span_digits (l : jsstring) : jsstring * jsstring :=
  match l with
  | [] => ([], [])
  | c :: r =>
      if is_digit c then (c :: fst (span_digits r), snd (span_digits r))
      else ([], l)
  end.

Definition char_digit (c : N) (u : uint) : uint :=
  if c =? 48 then D0 u else if c =? 49 then D1 u else if c =? 50 then D2 u
  else if c =? 51 then D3 u else if c =? 52 then D4 u else if c =? 53 then D5 u
  else if c =? 54 then D6 u else if c =? 55 then D7 u else if c =? 56 then D8 u
  else D9 u.

Fixpoint chars_uint (ds : jsstring) : uint :=
  match ds with
  | [] => Nil
  | c :: r => char_digit c (chars_uint r)
  end.

(** The integer part of a numeral: a single zero, or a non-zero digit and
    the digits after it. *)
Definition parse_int_part (l : jsstring) : parsed jsstring :=
  match l with
  | [] => SyntaxError
  | c :: r =>
      if c =? 48 then Parsed [48] r
      else if is_digit c then Parsed (c :: fst (span_digits r)) (snd (span_digits r))
      else SyntaxError
  end.

(** The optional fraction: a point and at least one digit. *)
Definition parse_frac (l : jsstring) : parsed jsstring :=
  match l with
  | c :: r =>
      if c =? 46 then
        match span_digits r with
        | ([], _) => SyntaxError
        | (ds, rest) => Parsed (46 :: ds) rest
        end
      else Parsed [] l
  | [] => Parsed [] l
  end.

(** The optional exponent: [e] or [E], an optional sign, at least one digit. *)
Definition parse_exp (l : jsstring) : parsed jsstring :=
  match l with
  | c :: r =>
      if (c =? 101) || (c =? 69) then
        let '(sign, r1) :=
          match r with
          | s :: r' => if (s =? 43) || (s =? 45) then ([s], r') else ([], r)
          | [] => ([], r)
          end in
        match span_digits r1 with
        | ([], _) => SyntaxError
        | (ds, rest) => Parsed (c :: sign ++ ds) rest
        end
      else Parsed [] l
  | [] => Parsed [] l
  end.

(** A numeral after its optional minus sign. *)
Definition parse_unsigned (neg : bool) (l1 : jsstring) : parsed json :=
  match parse_int_part l1 with
  | Parsed ds l2 =>
      match parse_frac l2 with
      | Parsed fr l3 =>
          match parse_exp l3 with
          | Parsed ex l4 =>
              match fr, ex with
              | [], [] =>
                  let v := Z.of_N (N.of_uint (chars_uint ds)) in
                  Parsed (JNum (if neg then (- v)%Z else v)) l4
              | _, _ =>
                  Parsed (JNumLit ((if neg then [45] else []) ++ ds ++ fr ++ ex)) l4
              end
          | SyntaxError => SyntaxError
          | OutOfFuel => OutOfFuel
          end
      | SyntaxError => SyntaxError
      | OutOfFuel => OutOfFuel
      end
  | SyntaxError => SyntaxError
  | OutOfFuel => OutOfFuel
  end.

Definition parse_number (l : jsstring) : parsed json :=
  match l with
  | c :: r => if c =? 45 then parse_unsigned true r else parse_unsigned false l
  | [] => SyntaxError
  end.

(** [expect lit l]: [l] without its prefix [lit]. *)
Fixpoint expect (lit l : jsstring) : option jsstring :=
  match lit, l with
  | [], _ => Some l
  | a :: lit', b :: l' => if a =? b then expect lit' l' else None
  | _ :: _, [] => None
  end.

Definition parse_literal (lit : jsstring) (v : json) (l : jsstring) : parsed json :=
  match expect lit l with
  | Some r => Parsed v r
  | None => SyntaxError
  end.

(** CreateDataProperty on an object under construction: a key already
    present keeps its place and takes the new value. *)
Fixpoint obj_set (k : jsstring) (v : json) (o : list (jsstring * json))
  : list (jsstring * json) :=
  match o with
  | [] => [(k, v)]
  | (k', v') :: o' =>
      if decide (k' = k) then (k, v) :: o' else (k', v') :: obj_set k v o'
  end.

Definition obj_of_members (ms : list (jsstring * json)) : list (jsstring * json) :=
  fold_left (fun o kv => obj_set (fst kv) (snd kv) o) ms [].

(** Recursive descent on the JSON grammar.  The fuel bounds the nesting of
    the calls; [JSON_parse] below gives enough of it for any text. *)
Fixpoint parse_value (fuel : nat) (l : jsstring) {struct fuel} : parsed json :=
  match fuel with
  | O => OutOfFuel
  | S f =>
      match skip_ws l with
      | [] => SyntaxError
      | c :: r =>
          if c =? 34 then pmap JStr (parse_chars r)
          else if c =? 91 then
            match skip_ws r with
            | [] => SyntaxError
            | d :: r' =>
                if d =? 93 then Parsed (JArr []) r'
                else pmap JArr (parse_elements f (d :: r'))
            end
          else if c =? 123 then
            match skip_ws r with
            | [] => SyntaxError
            | d :: r' =>
                if d =? 125 then Parsed (JObj []) r'
                else pmap (fun ms => JObj (obj_of_members ms)) (parse_members f (d :: r'))
            end
          else if c =? 116 then parse_literal [114; 117; 101] (JBool true) r
          else if c =? 102 then parse_literal [97; 108; 115; 101] (JBool false) r
          else if c =? 110 then parse_literal [117; 108; 108] JNull r
          else if (c =? 45) || is_digit c then parse_number (c :: r)
          else SyntaxError
      end
  end
with parse_elements (fuel : nat) (l : jsstring) {struct fuel} : parsed (list json) :=
  match fuel with
  | O => OutOfFuel
  | S f =>
      match parse_value f l with
      | Parsed v r =>
          match skip_ws r with
          | [] => SyntaxError
          | d :: r' =>
              if d =? 44 then pmap (cons v) (parse_elements f r')
              else if d =? 93 then Parsed [v] r'
              else SyntaxError
          end
      | SyntaxError => SyntaxError
      | OutOfFuel => OutOfFuel
      end
  end
with parse_members (fuel : nat) (l : jsstring) {struct fuel}
  : parsed (list (jsstring * json)) :=
  match fuel with
  | O => OutOfFuel
  | S f =>
      match skip_ws l with
      | [] => SyntaxError
      | q :: r =>
          if q =? 34 then
            match parse_chars r with
            | Parsed k r1 =>
                match skip_ws r1 with
                | [] => SyntaxError
                | c :: r2 =>
                    if c =? 58 then
                      match parse_value f r2 with
                      | Parsed v r3 =>
                          match skip_ws r3 with
                          | [] => SyntaxError
                          | d :: r4 =>
                              if d =? 44 then pmap (cons (k, v)) (parse_members f r4)
                              else if d =? 125 then Parsed [(k, v)] r4
                              else SyntaxError
                          end
                      | SyntaxError => SyntaxError
                      | OutOfFuel => OutOfFuel
                      end
                    else SyntaxError
                end
            | SyntaxError => SyntaxError
            | OutOfFuel => OutOfFuel
            end
          else SyntaxError
      end
  end.

(** What the parsers leave: [consumed p l] when [p] stopped by itself on a
    rest strictly shorter than [l], [advanced p l] on a rest no longer. *)
Definition consumed {A} (p : parsed A) (l : jsstring) : Prop :=
  match p with
  | Parsed _ r => (length r < length l)%nat
  | SyntaxError => True
  | OutOfFuel => False
  end.

Definition advanced {A} (p : parsed A) (l : jsstring) : Prop :=
  match p with
  | Parsed _ r => (length r <= length l)%nat
  | SyntaxError => True
  | OutOfFuel => False
  end.

(** A rest before which a numeral ends. *)
Definition ends_number (rest : jsstring) : Prop :=
  match rest with
  | c :: _ => is_digit c = false /\ c <> 46 /\ c <> 101 /\ c <> 69
  | [] => True
  end.

(** The result of [JSON.parse]: a value, or the SyntaxError it throws. *)
Inductive parse_result : Type :=
| Value (v : json)
| Throw_SyntaxError
| Fuel_exhausted.

Definition JSON_parse (text : jsstring) : parse_result :=
  match parse_value (2 * length text + 1) text with
  | Parsed v rest =>
      match skip_ws rest with
      | [] => Value v
      | _ :: _ => Throw_SyntaxError
      end
  | SyntaxError => Throw_SyntaxError
  | OutOfFuel => Fuel_exhausted
  end.

End JSON.

(** ** Numbers *)

Module JSNumber.
Local Open Scope Z_scope.

(** The double nearest to an integer, ties to the even significand
    (ECMA-262, 6.1.6.1): every integer up to 2^53 in absolute value is a
    double; above, the doubles are the multiples of the power of two that
    leaves 53 bits.  The integers of this script stay far below the
    overflow to infinity, which is left out. *)
Definition round (z : Z) : Z :=
  if Z.abs z <=? 9007199254740992 then z
  else
    let u := 2 ^ (Z.log2 (Z.abs z) - 52) in
    let q := Z.abs z / u in
    let r := Z.abs z mod u in
    let m := if 2 * r <? u then q
             else if u <? 2 * r then q + 1
             else if Z.even q then q else q + 1 in
    Z.sgn z * (m * u).

(** Number::add on doubles of integer value. *)
Definition add (x y : Z) : Z := round (x + y).

(** Number.isSafeInteger *)
Definition safe_integer (n : Z) : Prop :=
  - 9007199254740992 < n < 9007199254740992.

End JSNumber.

(** ** The script *)

(** [interface Task] *)
Record Task : Type := {
  id : Z;
  text : jsstring;
  completed : bool
}.

#[global] Instance Task_eq_dec : EqDecision Task.
Proof. solve_decision. Defined.

(** One [<li>] built by [renderTasks]: the class of the item, the state of
    its checkbox, the text of its span, and the identifier each of its two
    click handlers passes on ([task.id], which no code assigns to). *)
Record Row : Type := {
  li_completed : bool;
  checkbox_checked : bool;
  span_textContent : jsstring;
  checkbox_click : Z;
  deleteBtn_click : Z
}.

(** The calls the script makes to the outside. *)
Inductive Call : Type :=
| Alert (message : jsstring)
| SetItem (key value : jsstring)
| Render (children : list Row).

Record World : Type := {
  tasks : list Task;                        (* let tasks: Task[] *)
  nextId : Z;                               (* let nextId: number *)
  taskInput_value : jsstring;               (* taskInput.value *)
  taskList : list Row;                      (* the children of taskList *)
  localStorage : gmap jsstring jsstring;
  calls : list Call                         (* oldest first *)
}.

Definition set_tasks (ts : list Task) (w : World) : World :=
  {| tasks := ts; nextId := nextId w; taskInput_value := taskInput_value w;
     taskList := taskList w; localStorage := localStorage w; calls := calls w |}.

Definition set_nextId (n : Z) (w : World) : World :=
  {| tasks := tasks w; nextId := n; taskInput_value := taskInput_value w;
     taskList := taskList w; localStorage := localStorage w; calls := calls w |}.

Definition set_taskInput_value (s : jsstring) (w : World) : World :=
  {| tasks := tasks w; nextId := nextId w; taskInput_value := s;
     taskList := taskList w; localStorage := localStorage w; calls := calls w |}.

(** [alert(message)] *)
Definition alert (message : jsstring) (w : World) : World :=
  {| tasks := tasks w; nextId := nextId w; taskInput_value := taskInput_value w;
     taskList := taskList w; localStorage := localStorage w;
     calls := calls w ++ [Alert message] |}.

(** [localStorage.setItem(key, value)] *)
Definition setItem (key value : jsstring) (w : World) : World :=
  {| tasks := tasks w; nextId := nextId w; taskInput_value := taskInput_value w;
     taskList := taskList w; localStorage := <[key := value]> (localStorage w);
     calls := calls w ++ [SetItem key value] |}.

(** The state of the script when its last line, the call of [loadTasks],
    is reached: the two variables as declared (lines 20 and 23), the input
    and the list of the page as they are, no call made yet. *)
Definition boot (storage : gmap jsstring jsstring) (input : jsstring)
    (children : list Row) : World :=
  {| tasks := []; nextId := 1; taskInput_value := input;
     taskList := children; localStorage := storage; calls := [] |}.

(** [JSON.stringify(tasks)]: every object of [tasks] has its three
    properties in the order of the literal of [addTask]. *)
Definition stringify_Task (t : Task) : jsstring :=
  JSON.SerializeJSONObject
    [(js "id", JSON.Number_toString (id t));
     (js "text", JSON.QuoteJSONString (text t));
     (js "completed", JSON.Boolean_toString (completed t))].

Definition JSON_stringify (ts : list Task) : jsstring :=
  JSON.SerializeJSONArray (stringify_Task <$> ts).

(** The value [JSON.parse] builds from the text of one task. *)
Definition task_json (t : Task) : JSON.json :=
  JSON.JObj [(js "id", JSON.JNum (id t)); (js "text", JSON.JStr (text t));
             (js "completed", JSON.JBool (completed t))].

(** The assignment [tasks = JSON.parse(savedTasks)] is unchecked: the value
    is a [Task[]] of the model when it is an array of objects with exactly
    the properties [id] (an integer), [text] (a string) and [completed]
    (a boolean), in this order, the layout [saveTasks] writes.  The page
    also works on arrays of objects in another layout (other key order,
    more keys); the embedding does not cover them: [loadTasks] answers
    [Unmodelled_value] there, and every property below names the storages
    it speaks of. *)
Definition as_Task (v : JSON.json) : option Task :=
  match v with
  | JSON.JObj [(k1, JSON.JNum n); (k2, JSON.JStr s); (k3, JSON.JBool b)] =>
      if decide (k1 = js "id" /\ k2 = js "text" /\ k3 = js "completed")
      then Some {| id := n; text := s; completed := b |}
      else None
  | _ => None
  end.

Definition as_Tasks (v : JSON.json) : option (list Task) :=
  match v with
  | JSON.JArr elems => mapM as_Task elems
  | _ => None
  end.

(** [Math.max(...xs)]; [None] stands for the [-Infinity] of no argument. *)
Definition Math_max (xs : list Z) : option Z :=
  match xs with
  | [] => None
  | x :: r => Some (fold_left Z.max r x)
  end.

(** How a call of [loadTasks] ends. *)
Inductive Outcome : Type :=
| Done (w : World)
| Throws_SyntaxError            (* [JSON.parse] threw *)
| Unmodelled_value              (* the parsed value is outside the model *)
| Parser_out_of_fuel.

(** lines 139-184 *)
Definition row_of (task : Task) : Row :=
  {| li_completed := completed task;
     checkbox_checked := completed task;
     span_textContent := text task;
     checkbox_click := id task;
     deleteBtn_click := id task |}.

Definition renderTasks (w : World) : World :=
  let children := fold_left (fun ul task => ul ++ [row_of task]) (tasks w) [] in
  {| tasks := tasks w; nextId := nextId w; taskInput_value := taskInput_value w;
     taskList := children; localStorage := localStorage w;
     calls := calls w ++ [Render children] |}.

(** lines 44-61 *)
Definition loadTasks (w : World) : Outcome :=
  match localStorage w !! js "tasks" with
  | Some (c :: s) =>                               (* if (savedTasks) *)
      match JSON.JSON_parse (c :: s) with
      | JSON.Value v =>
          match as_Tasks v with
          | Some ts =>
              let w1 := set_tasks ts w in
              let w2 :=
                if decide (0 < length (tasks w1))%nat then
                  match Math_max (id <$> tasks w1) with
                  | Some m => set_nextId (JSNumber.add m 1) w1
                  | None => w1
                  end
                else w1 in
              Done (renderTasks w2)
          | None => Unmodelled_value
          end
      | JSON.Throw_SyntaxError => Throws_SyntaxError
      | JSON.Fuel_exhausted => Parser_out_of_fuel
      end
  | _ => Done w                                    (* null or the empty string *)
  end.

(** lines 67-71 *)
Definition saveTasks (w : World) : World :=
  setItem (js "tasks") (JSON_stringify (tasks w)) w.

(** lines 77-105 *)
Definition addTask (w : World) : World :=
  let text := JSString.trim (taskInput_value w) in
  if decide (text = []) then
    alert (js "Por favor, digite uma tarefa!") w
  else
    let newTask := {| id := nextId w; text := text; completed := false |} in
    let w := set_nextId (JSNumber.add (nextId w) 1) w in
    let w := set_tasks (tasks w ++ [newTask]) w in
    let w := set_taskInput_value [] w in
    let w := saveTasks w in
    renderTasks w.

(** lines 111-121.  [find] gives the first task with the identifier; the
    assignment to its [completed] changes the object held at that index of
    [tasks]. *)
Definition toggleTask (i : Z) (w : World) : World :=
  match list_find (fun t => id t = i) (tasks w) with
  | Some (k, task) =>
      let task' := {| id := id task; text := text task;
                      completed := negb (completed task) |} in
      let w := set_tasks (<[k := task']> (tasks w)) w in
      let w := saveTasks w in
      renderTasks w
  | None => w
  end.

(** lines 127-133 *)
Definition deleteTask (i : Z) (w : World) : World :=
  let w := set_tasks (filter (fun t => id t <> i) (tasks w)) w in
  let w := saveTasks w in
  renderTasks w.

(** The events of lines 161, 174 and 192-199, and the typing of the user
    in the input. *)
Inductive UIEvent : Type :=
| Type_text (s : jsstring)
| Click_addBtn
| Keypress (key : jsstring)
| Click_checkbox (row : nat)
| Click_deleteBtn (row : nat).

Definition dispatch (e : UIEvent) (w : World) : World :=
  match e with
  | Type_text s => set_taskInput_value s w
  | Click_addBtn => addTask w
  | Keypress key => if decide (key = js "Enter") then addTask w else w
  | Click_checkbox n =>
      match taskList w !! n with
      | Some li => toggleTask (checkbox_click li) w
      | None => w
      end
  | Click_deleteBtn n =>
      match taskList w !! n with
      | Some li => deleteTask (deleteBtn_click li) w
      | None => w
      end
  end.

(** The operations of the store as the specification names them: [add]
    with the text the input holds, [toggle] and [remove] with an
    identifier. *)
Inductive Op : Type :=
| Add (input : jsstring)
| Toggle (i : Z)
| Remove (i : Z).

Definition apply_op (w : World) (o : Op) : World :=
  match o with
  | Add input => addTask (set_taskInput_value input w)
  | Toggle i => toggleTask i w
  | Remove i => deleteTask i w
  end.

Definition run (w : World) (ops : list Op) : World := fold_left apply_op ops w.

(** Whether an operation is an [add] whose text is not blank. *)
Definition adds (o : Op) : bool :=
  match o with
  | Add input => if decide (JSString.trim input = []) then false else true
  | _ => false
  end.

(** ** The vocabulary of the properties *)

(** The slot [tasks] of the storage holds the serialization of the
    sequence in memory. *)
Definition persisted (w : World) : Prop :=
  localStorage w !! js "tasks" = Some (JSON_stringify (tasks w)).

(** Whether an operation gets past the guard of its function: the test of
    line 82 for [addTask], the test of line 116 for [toggleTask];
    [deleteTask] has none. *)
Definition takes_effect (w : World) (o : Op) : bool :=
  match o with
  | Add input => bool_decide (JSString.trim input <> [])
  | Toggle i => bool_decide (i ∈ id <$> tasks w)
  | Remove _ => true
  end.

(** From [w] to [w'] the store was persisted, then rendered, and nothing
    else was called: the text written and the rows built are those of the
    sequence [w'] holds. *)
Definition pipeline (w w' : World) : Prop :=
  calls w' = calls w ++ [SetItem (js "tasks") (JSON_stringify (tasks w'));
                         Render (row_of <$> tasks w')]
  /\ localStorage w' = <[js "tasks" := JSON_stringify (tasks w')]> (localStorage w)
  /\ taskList w' = row_of <$> tasks w'.

(** The storage a page finds when a sequence was saved before it, or when
    nothing was. *)
Definition holds (storage : gmap jsstring jsstring) (S : list Task) : Prop :=
  match storage !! js "tasks" with
  | Some saved => saved = JSON_stringify S
  | None => S = []
  end.

(** The first identifier [addTask] gives after the hydration of [S]. *)
Definition first_id (S : list Task) : Z :=
  match Math_max (id <$> S) with
  | Some m => m + 1
  | None => 1
  end.


(** What the assignment of line 117 makes of the task it finds. *)
Definition toggled (t : Task) : Task :=
  {| id := id t; text := text t; completed := negb (completed t) |}.

(** Every identifier of the sequence occurs once and is below [nextId]. *)
Definition ids_fresh (w : World) : Prop :=
  NoDup (id <$> tasks w) /\ Forall (fun t => (id t < nextId w)%Z) (tasks w).

(** The list shown is the rendering of the sequence in memory. *)
Definition rows_in_sync (w : World) : Prop := taskList w = row_of <$> tasks w.

(** ** The page in use *)

(** The events of a session, in turn. *)
Definition session (w : World) (es : list UIEvent) : World :=
  fold_left (fun w e => dispatch e w) es w.

(** The slot [tasks] as the test [if (savedTasks)] of line 49 sees it when
    it fails: [null] or the empty string. *)
Definition slot_falsy (w : World) : Prop :=
  localStorage w !! js "tasks" = None \/ localStorage w !! js "tasks" = Some [].

(** Reloading the page: the script starts again, with an empty list, on the
    storage the last run left. *)
Definition reload (w : World) (input : jsstring) : Outcome :=
  loadTasks (boot (localStorage w) input []).

(** A text with a first and a last character, neither of them white
    space. *)
Definition trimmed (s : jsstring) : Prop :=
  match s with
  | [] => False
  | c :: _ => JSString.is_white_space c = false
  end
  /\ match last s with
     | Some c => JSString.is_white_space c = false
     | None => False
     end.

(** A text made of white space only. *)
Definition blank (s : jsstring) : Prop :=
  Forall (fun c => JSString.is_white_space c = true) s.

(** The storage is up to date: it holds the sequence in memory, or that
    sequence is empty and nothing was saved yet. *)
Definition up_to_date (w : World) : Prop :=
  persisted w \/ (tasks w = [] /\ localStorage w !! js "tasks" = None).


(** * Facts about the JSON model *)

Module JSONFacts.
Import JSON.
Local Open Scope N_scope.

(** ** Strings *)

Lemma hexval_hexdigit d : d < 16 -> hexval (hexdigit d) = Some d.
Proof.
  intros H.
  assert (d = 0 \/ d = 1 \/ d = 2 \/ d = 3 \/ d = 4 \/ d = 5 \/ d = 6 \/ d = 7
          \/ d = 8 \/ d = 9 \/ d = 10 \/ d = 11 \/ d = 12 \/ d = 13 \/ d = 14
          \/ d = 15) as Hd by lia.
  repeat (destruct Hd as [-> | Hd]; [reflexivity |]).
  subst d. reflexivity.
Qed.

Lemma hex4_UnicodeEscape c :
  c < 65536 ->
  hex4 (hexdigit (c / 4096 mod 16)) (hexdigit (c / 256 mod 16))
       (hexdigit (c / 16 mod 16)) (hexdigit (c mod 16)) = Some c.
Proof.
  intros H. unfold hex4.
  rewrite !hexval_hexdigit by (apply N.mod_lt; discriminate).
  f_equal.
  zify. Z.to_euclidean_division_equations. lia.
Qed.

Lemma parse_chars_UnicodeEscape c l :
  c < 65536 ->
  parse_chars (UnicodeEscape c ++ l) = pmap (cons c) (parse_chars l).
Proof.
  intros H. unfold UnicodeEscape.
  cbn [app parse_chars].
  change (92 =? 34) with false. change (92 =? 92) with true.
  change (117 =? 117) with true. cbn iota.
  now rewrite hex4_UnicodeEscape.
Qed.

Lemma parse_chars_plain c l :
  c <> 34 -> c <> 92 -> 32 <= c ->
  parse_chars (c :: l) = pmap (cons c) (parse_chars l).
Proof.
  intros H1 H2 H3. cbn [parse_chars].
  destruct (N.eqb_spec c 34); [contradiction |].
  destruct (N.eqb_spec c 92); [contradiction |].
  destruct (N.ltb_spec c 32); [lia | reflexivity].
Qed.

Lemma surrogate_bounds c :
  is_leading_surrogate c || is_trailing_surrogate c = true ->
  0xD800 <= c <= 0xDFFF.
Proof.
  unfold is_leading_surrogate, is_trailing_surrogate.
  rewrite orb_true_iff, !andb_true_iff, !N.leb_le. lia.
Qed.

Lemma parse_chars_quote_unit c l :
  parse_chars (quote_unit c ++ l) = pmap (cons c) (parse_chars l).
Proof.
  unfold quote_unit.
  repeat match goal with
         | |- context [N.eqb c ?k] =>
             destruct (N.eqb_spec c k) as [-> | ?]; [reflexivity |]
         end.
  destruct (c <? 32) eqn:Hlt; cbn [orb].
  - apply parse_chars_UnicodeEscape. apply N.ltb_lt in Hlt. lia.
  - destruct (is_leading_surrogate c || is_trailing_surrogate c) eqn:Hs.
    + apply parse_chars_UnicodeEscape. apply surrogate_bounds in Hs. lia.
    + apply parse_chars_plain; try assumption.
      apply N.ltb_ge in Hlt. exact Hlt.
Qed.

Lemma parse_chars_quote_units_aux (n : nat) :
  forall s rest, (length s <= n)%nat ->
    parse_chars (quote_units s ++ 34 :: rest) = Parsed s rest.
Proof.
  induction n as [| n IH]; intros s rest Hlen.
  - destruct s; [reflexivity | cbn in Hlen; lia].
  - destruct s as [| c r]; [reflexivity |].
    cbn [length] in Hlen. cbn [quote_units].
    destruct (is_leading_surrogate c) eqn:Hc.
    + assert (0xD800 <= c <= 0xDFFF) as Hb
        by (apply surrogate_bounds; rewrite Hc; reflexivity).
      destruct r as [| d r'].
      * rewrite parse_chars_UnicodeEscape by lia. reflexivity.
      * destruct (is_trailing_surrogate d) eqn:Hd.
        -- assert (0xD800 <= d <= 0xDFFF) as Hb'
             by (apply surrogate_bounds; rewrite Hd; apply orb_true_r).
           cbn [app].
           rewrite parse_chars_plain by lia.
           rewrite parse_chars_plain by lia.
           rewrite IH by (cbn [length] in Hlen; lia). reflexivity.
        -- rewrite <- app_assoc, parse_chars_UnicodeEscape by lia.
           rewrite IH by lia. reflexivity.
    + rewrite <- app_assoc, parse_chars_quote_unit.
      rewrite IH by lia. reflexivity.
Qed.

(** Reading back the characters [QuoteJSONString] writes. *)
Lemma parse_chars_quote_units s rest :
  parse_chars (quote_units s ++ 34 :: rest) = Parsed s rest.
Proof. apply (parse_chars_quote_units_aux (length s)). lia. Qed.

(** ** Numbers *)

Lemma span_digits_uint_chars d rest :
  match rest with c :: _ => is_digit c = false | [] => True end ->
  span_digits (uint_chars d ++ rest) = (uint_chars d, rest).
Proof.
  intros Hrest. induction d; cbn [uint_chars app span_digits];
    try (change (is_digit _) with true; cbn iota; rewrite IHd; reflexivity).
  destruct rest as [| c r]; [reflexivity |].
  cbn [span_digits]. rewrite Hrest. reflexivity.
Qed.

Lemma chars_uint_uint_chars d : chars_uint (uint_chars d) = d.
Proof.
  induction d; cbn [uint_chars chars_uint]; [reflexivity | ..];
    rewrite IHd; reflexivity.
Qed.

(** The decimal writing of a positive number does not start with a zero. *)
Lemma to_uint_head p :
  exists c r, uint_chars (Pos.to_uint p) = c :: r /\ is_digit c = true /\ c <> 48.
Proof.
  pose proof (DecimalPos.Unsigned.to_uint_nonzero p) as Hnz.
  pose proof (DecimalPos.Unsigned.to_uint_nonnil p) as Hnn.
  assert (unorm (Pos.to_uint p) = Pos.to_uint p) as Hnorm.
  { rewrite <- DecimalPos.Unsigned.to_of.
    rewrite DecimalPos.Unsigned.of_to. reflexivity. }
  destruct (Pos.to_uint p) as [| u | u | u | u | u | u | u | u | u | u] eqn:E;
    try (eexists _, _; split; [cbn [uint_chars]; reflexivity |];
         split; [reflexivity | discriminate]).
  - contradiction.
  - exfalso. rewrite unorm_D0 in Hnorm.
    destruct (uint_eq_dec u Nil) as [-> | Hu]; [apply Hnz; reflexivity |].
    pose proof (nb_digits_unorm u Hu) as Hle.
    rewrite Hnorm in Hle. cbn [nb_digits] in Hle. lia.
Qed.

Lemma parse_frac_none rest :
  ends_number rest -> parse_frac rest = Parsed [] rest.
Proof.
  destruct rest as [| c r]; [reflexivity |].
  intros (_ & H & _). cbn [parse_frac].
  destruct (N.eqb_spec c 46); [contradiction | reflexivity].
Qed.

Lemma parse_exp_none rest :
  ends_number rest -> parse_exp rest = Parsed [] rest.
Proof.
  destruct rest as [| c r]; [reflexivity |].
  intros (_ & _ & H1 & H2). cbn [parse_exp].
  destruct (N.eqb_spec c 101); [contradiction |].
  destruct (N.eqb_spec c 69); [contradiction | reflexivity].
Qed.

Lemma parse_int_part_pos p rest :
  ends_number rest ->
  exists ds, parse_int_part (uint_chars (Pos.to_uint p) ++ rest) = Parsed ds rest
             /\ N.of_uint (chars_uint ds) = Npos p.
Proof.
  intros Hrest.
  assert (match rest with c :: _ => is_digit c = false | [] => True end) as Hd
    by (destruct rest; [exact I | apply Hrest]).
  exists (uint_chars (Pos.to_uint p)). split.
  - pose proof (span_digits_uint_chars (Pos.to_uint p) rest Hd) as Hspan.
    destruct (to_uint_head p) as (c & r & E & Hc & Hne).
    rewrite E in *. cbn [app parse_int_part].
    destruct (N.eqb_spec c 48); [contradiction |]. rewrite Hc.
    cbn [app span_digits] in Hspan. rewrite Hc in Hspan.
    injection Hspan as H1 H2. rewrite H1, H2. reflexivity.
  - rewrite chars_uint_uint_chars.
    change (N.of_uint (Pos.to_uint p)) with (Pos.of_uint (Pos.to_uint p)).
    apply DecimalPos.Unsigned.of_to.
Qed.

Lemma parse_number_unsigned p rest :
  ends_number rest ->
  exists ds, parse_int_part (uint_chars (Pos.to_uint p) ++ rest) = Parsed ds rest
             /\ parse_frac rest = Parsed [] rest
             /\ parse_exp rest = Parsed [] rest
             /\ N.of_uint (chars_uint ds) = Npos p.
Proof.
  intros Hrest. destruct (parse_int_part_pos p rest Hrest) as (ds & H1 & H2).
  exists ds. repeat split; auto using parse_frac_none, parse_exp_none.
Qed.

(** Reading back the digits [Number::toString] writes. *)
Lemma parse_number_toString n rest :
  ends_number rest ->
  parse_number (Number_toString n ++ rest) = Parsed (JNum n) rest.
Proof.
  intros Hrest. destruct n as [| p | p]; cbn [Number_toString].
  - cbn [app parse_number]. change (48 =? 45) with false. cbn iota.
    unfold parse_unsigned.
    cbn [parse_int_part]. change (48 =? 48) with true. cbn iota.
    rewrite parse_frac_none, parse_exp_none by assumption. reflexivity.
  - destruct (parse_number_unsigned p rest Hrest) as (ds & H1 & H2 & H3 & H4).
    destruct (to_uint_head p) as (c & r & E & Hc & Hne).
    rewrite E in *. cbn [app parse_number] in *.
    assert ((c =? 45) = false) as ->.
    { apply N.eqb_neq. intros ->. discriminate Hc. }
    unfold parse_unsigned. rewrite H1, H2, H3, H4. reflexivity.
  - destruct (parse_number_unsigned p rest Hrest) as (ds & H1 & H2 & H3 & H4).
    cbn [app parse_number]. change (45 =? 45) with true. cbn iota.
    unfold parse_unsigned. rewrite H1, H2, H3, H4. reflexivity.
Qed.

Lemma Number_toString_head n :
  exists c r, Number_toString n = c :: r /\ (c = 45 \/ is_digit c = true).
Proof.
  destruct n as [| p | p]; cbn [Number_toString].
  - exists 48, []. split; [reflexivity | right; reflexivity].
  - destruct (to_uint_head p) as (c & r & E & Hc & _).
    exists c, r. split; [exact E | right; exact Hc].
  - eexists _, _. split; [reflexivity | left; reflexivity].
Qed.

(** ** The model on a few texts *)

Example quote_escapes :
  QuoteJSONString [65; 10; 34; 1; 0xD800; 0xD83D; 0xDE00]
  = [34; 65] ++ js "\n" ++ [92; 34] ++ js "\u0001\ud800" ++ [0xD83D; 0xDE00; 34].
Proof. reflexivity. Qed.

Example parse_mixed_array :
  JSON_parse (js " [1, 2.5e+3 , {} , [ ], -0, true,null ] ")
  = Value (JArr [JNum 1; JNumLit (js "2.5e+3"); JObj []; JArr []; JNum 0;
                 JBool true; JNull]).
Proof. vm_compute. reflexivity. Qed.

Example parse_rejects :
  JSON_parse (js "[01]") = Throw_SyntaxError
  /\ JSON_parse (js "[1,]") = Throw_SyntaxError
  /\ JSON_parse (js "1.") = Throw_SyntaxError
  /\ JSON_parse (js "tru") = Throw_SyntaxError
  /\ JSON_parse [] = Throw_SyntaxError.
Proof. repeat split; vm_compute; reflexivity. Qed.

Example trim_blank_and_text :
  JSString.trim (js "   ") = [] /\ JSString.trim (0xA0 :: js " a b " ++ [0x2028]) = js "a b".
Proof. split; reflexivity. Qed.

End JSONFacts.

Module TaskJSON.
Import JSON JSONFacts.
Local Open Scope N_scope.

Lemma parse_value_number f n rest :
  ends_number rest ->
  parse_value (S f) (Number_toString n ++ rest) = Parsed (JNum n) rest.
Proof.
  intros Hrest. rewrite <- (parse_number_toString n rest Hrest).
  destruct (Number_toString_head n) as (c & r & -> & Hc).
  cbn [app parse_value skip_ws].
  destruct Hc as [-> | Hc]; [reflexivity |].
  unfold is_digit in Hc. apply andb_true_iff in Hc as [H1 H2].
  apply N.leb_le in H1, H2.
  unfold is_json_ws.
  repeat (repeat match goal with
                 | |- context [N.eqb c ?k] =>
                     destruct (N.eqb_spec c k) as [-> | ?]; [lia |]
                 end;
          cbn [orb]).
  unfold is_digit.
  destruct (N.leb_spec 48 c); [| lia]. destruct (N.leb_spec c 57); [| lia].
  reflexivity.
Qed.

Lemma parse_value_string f s rest :
  parse_value (S f) (QuoteJSONString s ++ rest) = Parsed (JStr s) rest.
Proof.
  unfold QuoteJSONString. cbn [app]. rewrite <- app_assoc. cbn [app].
  change (parse_value (S f) (34 :: ?l)) with (pmap JStr (parse_chars l)).
  rewrite parse_chars_quote_units. reflexivity.
Qed.

Lemma parse_value_boolean f b rest :
  parse_value (S f) (Boolean_toString b ++ rest) = Parsed (JBool b) rest.
Proof.
  destruct b; cbn [Boolean_toString app parse_value skip_ws]; cbn; reflexivity.
Qed.

Lemma parse_members_more f k l v r :
  parse_value f l = Parsed v (44 :: r) ->
  parse_members (S f) (QuoteJSONString k ++ 58 :: l)
  = pmap (cons (k, v)) (parse_members f r).
Proof.
  intros Hv. unfold QuoteJSONString. cbn [app]. rewrite <- app_assoc.
  cbn [app parse_members skip_ws].
  change (is_json_ws 34) with false. change (34 =? 34) with true. cbn iota.
  rewrite parse_chars_quote_units. cbn [skip_ws].
  change (is_json_ws 58) with false. change (58 =? 58) with true. cbn iota.
  rewrite Hv. reflexivity.
Qed.

Lemma parse_members_last f k l v r :
  parse_value f l = Parsed v (125 :: r) ->
  parse_members (S f) (QuoteJSONString k ++ 58 :: l) = Parsed [(k, v)] r.
Proof.
  intros Hv. unfold QuoteJSONString. cbn [app]. rewrite <- app_assoc.
  cbn [app parse_members skip_ws].
  change (is_json_ws 34) with false. change (34 =? 34) with true. cbn iota.
  rewrite parse_chars_quote_units. cbn [skip_ws].
  change (is_json_ws 58) with false. change (58 =? 58) with true. cbn iota.
  rewrite Hv. reflexivity.
Qed.

Lemma parse_value_object f k l :
  parse_value (S f) (123 :: QuoteJSONString k ++ l)
  = pmap (fun ms => JObj (obj_of_members ms))
         (parse_members f (QuoteJSONString k ++ l)).
Proof. reflexivity. Qed.

Lemma stringify_Task_app t rest :
  stringify_Task t ++ rest =
  123 :: QuoteJSONString (js "id") ++ 58 :: Number_toString (id t) ++
  44 :: QuoteJSONString (js "text") ++ 58 :: QuoteJSONString (text t) ++
  44 :: QuoteJSONString (js "completed") ++ 58 ::
  Boolean_toString (completed t) ++ 125 :: rest.
Proof.
  unfold stringify_Task, SerializeJSONObject.
  cbn [fmap list_fmap join_comma fst snd].
  repeat (rewrite <- app_assoc; cbn [app]). reflexivity.
Qed.

Lemma parse_value_Task f t rest :
  parse_value (5 + f) (stringify_Task t ++ rest) = Parsed (task_json t) rest.
Proof.
  rewrite stringify_Task_app.
  change (5 + f)%nat with (S (S (S (S (S f))))).
  rewrite parse_value_object.
  erewrite parse_members_more;
    [| apply parse_value_number; cbn; repeat split; discriminate].
  erewrite parse_members_more; [| apply parse_value_string].
  erewrite parse_members_last; [| apply parse_value_boolean].
  reflexivity.
Qed.

Lemma as_Task_task_json t : as_Task (task_json t) = Some t.
Proof. destruct t. reflexivity. Qed.

Lemma as_Tasks_task_json ts : as_Tasks (JArr (task_json <$> ts)) = Some ts.
Proof.
  cbn [as_Tasks]. induction ts as [| t ts IH]; [reflexivity |].
  cbn [fmap list_fmap mapM]. rewrite as_Task_task_json. cbn.
  rewrite IH. reflexivity.
Qed.

Lemma stringify_Task_head t :
  exists r, stringify_Task t = 123 :: 34 :: r.
Proof. eexists. reflexivity. Qed.

Lemma parse_elements_Tasks ts : forall t f rest,
  parse_elements (6 + length ts + f)
    (join_comma (stringify_Task <$> (t :: ts)) ++ 93 :: rest)
  = Parsed (task_json <$> (t :: ts)) rest.
Proof.
  induction ts as [| t' ts IH]; intros t f rest.
  - cbn [fmap list_fmap join_comma length].
    change (6 + 0 + f)%nat with (S (5 + f)).
    cbn [parse_elements]. rewrite parse_value_Task. reflexivity.
  - change (stringify_Task <$> (t :: t' :: ts))
      with (stringify_Task t :: (stringify_Task <$> (t' :: ts))).
    change (join_comma (stringify_Task t :: (stringify_Task <$> (t' :: ts))))
      with (stringify_Task t ++ 44 :: join_comma (stringify_Task <$> (t' :: ts))).
    rewrite <- app_assoc. cbn [app length].
    change (6 + S (length ts) + f)%nat with (S (5 + (S (length ts + f)))).
    cbn [parse_elements]. rewrite parse_value_Task.
    cbn [skip_ws]. change (is_json_ws 44) with false.
    change (44 =? 44) with true. cbn iota.
    change (5 + S (length ts + f))%nat with (6 + length ts + f)%nat.
    rewrite IH. reflexivity.
Qed.

Lemma length_join_comma_Tasks ts :
  (length ts <= length (join_comma (stringify_Task <$> ts)))%nat.
Proof.
  induction ts as [| t ts IH]; [reflexivity |].
  destruct ts as [| t' ts].
  - destruct (stringify_Task_head t) as (r & E).
    cbn [fmap list_fmap join_comma]. rewrite E. cbn [length]. lia.
  - change (join_comma (stringify_Task <$> (t :: t' :: ts)))
      with (stringify_Task t ++ 44 :: join_comma (stringify_Task <$> (t' :: ts))).
    rewrite length_app. cbn [length] in *. lia.
Qed.

Lemma parse_value_array f l :
  parse_value (S f) (91 :: 123 :: l)
  = pmap JArr (parse_elements f (123 :: l)).
Proof. reflexivity. Qed.

(** [JSON.parse] reads the text [JSON.stringify] writes for a sequence of
    tasks, and the value it builds is that sequence. *)
Lemma JSON_parse_stringify ts :
  JSON_parse (JSON_stringify ts) = Value (JArr (task_json <$> ts)).
Proof.
  destruct ts as [| t ts]; [reflexivity |].
  unfold JSON_parse, JSON_stringify, SerializeJSONArray.
  pose proof (length_join_comma_Tasks (t :: ts)) as Hlen.
  assert (exists r, join_comma (stringify_Task <$> (t :: ts)) = 123 :: r)
    as [r Hr].
  { destruct (stringify_Task_head t) as (r & E).
    destruct ts; cbn [fmap list_fmap join_comma]; rewrite E; eexists; reflexivity. }
  remember (join_comma (stringify_Task <$> (t :: ts))) as body eqn:Hbody.
  assert (exists f : nat,
             (2 * length (91%N :: body ++ [93%N]) + 1)%nat
             = S (6 + length ts + f)%nat) as [f ->].
  { cbn [length] in *. rewrite length_app. cbn [length].
    exists (2 * length body - length ts - 2)%nat. lia. }
  replace (91 :: body ++ [93]) with (91 :: 123 :: (r ++ [93]))
    by (rewrite Hr; reflexivity).
  rewrite parse_value_array.
  replace (123 :: r ++ [93]) with (body ++ [93]) by (rewrite Hr; reflexivity).
  rewrite Hbody, parse_elements_Tasks. reflexivity.
Qed.

End TaskJSON.

(** ** The fuel of [JSON_parse] is enough *)

Module ParserFuel.
Import JSON.
Local Open Scope nat_scope.

Lemma consumed_pmap {A B} (g : A -> B) p l :
  consumed p l -> consumed (pmap g p) l.
Proof. destruct p; intros H; exact H. Qed.

Lemma advanced_pmap {A B} (g : A -> B) p l :
  advanced p l -> advanced (pmap g p) l.
Proof. destruct p; intros H; exact H. Qed.

Lemma advanced_consumed {A} (p : parsed A) l c :
  advanced p l -> consumed p (c :: l).
Proof. destruct p; cbn; lia. Qed.

Lemma consumed_weaken {A} (p : parsed A) l l' :
  length l <= length l' -> consumed p l -> consumed p l'.
Proof. destruct p; cbn; lia. Qed.

Lemma advanced_weaken {A} (p : parsed A) l l' :
  length l <= length l' -> advanced p l -> advanced p l'.
Proof. destruct p; cbn; lia. Qed.

Lemma skip_ws_length l : length (skip_ws l) <= length l.
Proof.
  induction l as [| c r IH]; [reflexivity |].
  cbn [skip_ws]. destruct (is_json_ws c); cbn [length] in *; lia.
Qed.

Lemma skip_ws_cons l d r : skip_ws l = d :: r -> length r < length l.
Proof.
  intros H. pose proof (skip_ws_length l) as Hl. rewrite H in Hl.
  cbn [length] in Hl. lia.
Qed.

Lemma parse_chars_advanced (n : nat) :
  forall l, length l <= n -> advanced (parse_chars l) l.
Proof.
  induction n as [| n IH]; intros l Hn.
  - destruct l; [exact I | cbn in Hn; lia].
  - destruct l as [| c r]; [exact I |].
    cbn [length] in Hn. cbn [parse_chars].
    destruct (N.eqb c 34); [cbn; lia |].
    destruct (N.eqb c 92).
    + destruct r as [| e r1]; [exact I |].
      destruct (N.eqb e 117).
      * destruct r1 as [| h1 [| h2 [| h3 [| h4 r2]]]]; try exact I.
        destruct (hex4 h1 h2 h3 h4); [| exact I].
        apply advanced_pmap.
        apply (advanced_weaken _ r2); [cbn [length]; lia |].
        apply IH. cbn [length] in Hn. lia.
      * destruct (unescape e); [| exact I].
        apply advanced_pmap.
        apply (advanced_weaken _ r1); [cbn [length]; lia |].
        apply IH. cbn [length] in Hn. lia.
    + destruct (N.ltb c 32); [exact I |].
      apply advanced_pmap.
      apply (advanced_weaken _ r); [cbn [length]; lia |].
      apply IH. lia.
Qed.

Lemma span_digits_length l : length (snd (span_digits l)) <= length l.
Proof.
  induction l as [| c r IH]; [reflexivity |].
  cbn [span_digits]. destruct (is_digit c); cbn [snd length] in *; lia.
Qed.

Lemma parse_int_part_consumed l : consumed (parse_int_part l) l.
Proof.
  destruct l as [| c r]; [exact I |]. cbn [parse_int_part].
  destruct (N.eqb c 48); [cbn; lia |].
  destruct (is_digit c); [| exact I].
  cbn [consumed length]. pose proof (span_digits_length r). lia.
Qed.

Lemma parse_frac_advanced l : advanced (parse_frac l) l.
Proof.
  destruct l as [| c r]; [cbn; lia |]. cbn [parse_frac].
  destruct (N.eqb c 46); [| cbn; lia].
  pose proof (span_digits_length r) as H.
  destruct (span_digits r) as [[| d ds] rest]; [exact I |].
  cbn [advanced length snd] in *. lia.
Qed.

Lemma parse_exp_advanced l : advanced (parse_exp l) l.
Proof.
  destruct l as [| c r]; [cbn; lia |]. cbn [parse_exp].
  destruct (N.eqb c 101 || N.eqb c 69); [| cbn; lia].
  destruct r as [| s r'].
  - cbn. exact I.
  - destruct (N.eqb s 43 || N.eqb s 45).
    + pose proof (span_digits_length r') as H.
      destruct (span_digits r') as [[| d ds] rest]; [exact I |].
      cbn [advanced length snd] in *. lia.
    + pose proof (span_digits_length (s :: r')) as H.
      destruct (span_digits (s :: r')) as [[| d ds] rest]; [exact I |].
      cbn [advanced length snd] in *. lia.
Qed.

Lemma parse_unsigned_consumed neg l : consumed (parse_unsigned neg l) l.
Proof.
  unfold parse_unsigned.
  pose proof (parse_int_part_consumed l) as H1.
  destruct (parse_int_part l) as [ds l2 | |]; [| exact I | exact H1].
  pose proof (parse_frac_advanced l2) as H2.
  destruct (parse_frac l2) as [fr l3 | |]; [| exact I | exact H2].
  pose proof (parse_exp_advanced l3) as H3.
  destruct (parse_exp l3) as [ex l4 | |]; [| exact I | exact H3].
  cbn in H1, H2, H3.
  destruct fr, ex; cbn; lia.
Qed.

Lemma parse_number_consumed l : consumed (parse_number l) l.
Proof.
  destruct l as [| c r]; [exact I |]. cbn [parse_number].
  destruct (N.eqb c 45).
  - apply advanced_consumed.
    pose proof (parse_unsigned_consumed true r) as H.
    destruct (parse_unsigned true r); cbn in *; lia.
  - apply parse_unsigned_consumed.
Qed.

Lemma expect_length lit : forall l r, expect lit l = Some r -> length r <= length l.
Proof.
  induction lit as [| a lit IH]; intros l r H.
  - cbn in H. injection H as <-. reflexivity.
  - destruct l as [| b l']; [discriminate |]. cbn [expect] in H.
    destruct (N.eqb a b); [| discriminate].
    apply IH in H. cbn [length]. lia.
Qed.

Lemma parse_literal_advanced lit v l : advanced (parse_literal lit v l) l.
Proof.
  unfold parse_literal. destruct (expect lit l) eqn:E; [| exact I].
  cbn. eapply expect_length, E.
Qed.

Lemma parser_fuel (f : nat) :
  (forall l, 2 * length l + 1 <= f -> consumed (parse_value f l) l)
  /\ (forall l, 2 * length l + 2 <= f -> consumed (parse_elements f l) l)
  /\ (forall l, 2 * length l + 2 <= f -> consumed (parse_members f l) l).
Proof.
  induction f as [| f (IHv & IHe & IHm)].
  - repeat split; intros l H; lia.
  - repeat split; intros l Hf.
    + cbn [parse_value].
      destruct (skip_ws l) as [| c r] eqn:Hs; [exact I |].
      apply skip_ws_cons in Hs.
      destruct (N.eqb c 34).
      { apply consumed_pmap.
        pose proof (parse_chars_advanced (length r) r (le_n _)) as H.
        destruct (parse_chars r); cbn in *; lia. }
      destruct (N.eqb c 91).
      { destruct (skip_ws r) as [| d r'] eqn:Hs'; [exact I |].
        pose proof (skip_ws_length r) as Hr. rewrite Hs' in Hr.
        destruct (N.eqb d 93); [cbn in *; lia |].
        apply consumed_pmap.
        assert (consumed (parse_elements f (d :: r')) (d :: r')) as H
          by (apply IHe; cbn [length] in *; lia).
        destruct (parse_elements f (d :: r')); cbn in *; lia. }
      destruct (N.eqb c 123).
      { destruct (skip_ws r) as [| d r'] eqn:Hs'; [exact I |].
        pose proof (skip_ws_length r) as Hr. rewrite Hs' in Hr.
        destruct (N.eqb d 125); [cbn in *; lia |].
        apply consumed_pmap.
        assert (consumed (parse_members f (d :: r')) (d :: r')) as H
          by (apply IHm; cbn [length] in *; lia).
        destruct (parse_members f (d :: r')); cbn in *; lia. }
      assert (forall lit v, consumed (parse_literal lit v r) l) as Hlit.
      { intros lit v. pose proof (parse_literal_advanced lit v r) as H.
        destruct (parse_literal lit v r); cbn in *; lia. }
      destruct (N.eqb c 116); [apply Hlit |].
      destruct (N.eqb c 102); [apply Hlit |].
      destruct (N.eqb c 110); [apply Hlit |].
      destruct (N.eqb c 45 || is_digit c); [| exact I].
      pose proof (parse_number_consumed (c :: r)) as H.
      destruct (parse_number (c :: r)); cbn in *; lia.
    + cbn [parse_elements].
      assert (consumed (parse_value f l) l) as H by (apply IHv; lia).
      destruct (parse_value f l) as [v r | |]; [| exact I | exact H].
      cbn in H.
      destruct (skip_ws r) as [| d r'] eqn:Hs; [exact I |].
      apply skip_ws_cons in Hs.
      destruct (N.eqb d 44).
      { apply consumed_pmap.
        assert (consumed (parse_elements f r') r') as H'
          by (apply IHe; lia).
        destruct (parse_elements f r'); cbn in *; lia. }
      destruct (N.eqb d 93); [cbn; lia | exact I].
    + cbn [parse_members].
      destruct (skip_ws l) as [| q r] eqn:Hs; [exact I |].
      apply skip_ws_cons in Hs.
      destruct (N.eqb q 34); [| exact I].
      pose proof (parse_chars_advanced (length r) r (le_n _)) as Hk.
      destruct (parse_chars r) as [k r1 | |]; [| exact I | exact Hk].
      cbn in Hk.
      destruct (skip_ws r1) as [| c r2] eqn:Hs1; [exact I |].
      apply skip_ws_cons in Hs1.
      destruct (N.eqb c 58); [| exact I].
      assert (consumed (parse_value f r2) r2) as H by (apply IHv; lia).
      destruct (parse_value f r2) as [v r3 | |]; [| exact I | exact H].
      cbn in H.
      destruct (skip_ws r3) as [| d r4] eqn:Hs3; [exact I |].
      apply skip_ws_cons in Hs3.
      destruct (N.eqb d 44).
      { apply consumed_pmap.
        assert (consumed (parse_members f r4) r4) as H'
          by (apply IHm; lia).
        destruct (parse_members f r4); cbn in *; lia. }
      destruct (N.eqb d 125); [cbn; lia | exact I].
Qed.

(** [JSON_parse] never stops for want of fuel: on every text it gives a
    value or the SyntaxError. *)
Lemma JSON_parse_total text : JSON_parse text <> Fuel_exhausted.
Proof.
  unfold JSON_parse.
  pose proof (proj1 (parser_fuel (2 * length text + 1)) text (le_n _)) as H.
  destruct (parse_value (2 * length text + 1) text) as [v rest | |].
  - destruct (skip_ws rest); discriminate.
  - discriminate.
  - destruct H.
Qed.

End ParserFuel.

(** * The script *)

Section Script.
Implicit Types (w : World) (i : Z) (ts : list Task) (o : Op).

Lemma render_children ts (acc : list Row) :
  fold_left (fun ul task => ul ++ [row_of task]) ts acc = acc ++ (row_of <$> ts).
Proof.
  revert acc. induction ts as [| t ts IH]; intros acc; cbn [fold_left fmap list_fmap].
  - now rewrite app_nil_r.
  - rewrite IH, <- app_assoc. reflexivity.
Qed.

(** What [saveTasks] then [renderTasks] do to a state. *)
Lemma save_render_pipeline w : pipeline w (renderTasks (saveTasks w)).
Proof.
  unfold pipeline, renderTasks, saveTasks, setItem. cbn.
  rewrite render_children, <- app_assoc. cbn. auto.
Qed.

Lemma persisted_save_render w : persisted (renderTasks (saveTasks w)).
Proof. unfold persisted. cbn. apply lookup_insert_eq. Qed.

Lemma addTask_blank w :
  JSString.trim (taskInput_value w) = [] ->
  addTask w = alert (js "Por favor, digite uma tarefa!") w.
Proof. intros H. unfold addTask. rewrite decide_True by exact H. reflexivity. Qed.

Lemma addTask_text w :
  JSString.trim (taskInput_value w) <> [] ->
  addTask w =
    renderTasks (saveTasks (set_taskInput_value []
      (set_tasks (tasks w ++ [{| id := nextId w;
                                 text := JSString.trim (taskInput_value w);
                                 completed := false |}])
         (set_nextId (JSNumber.add (nextId w) 1) w)))).
Proof. intros H. unfold addTask. rewrite decide_False by exact H. reflexivity. Qed.

Lemma tasks_addTask_text w input :
  JSString.trim input <> [] ->
  tasks (apply_op w (Add input))
  = tasks w ++ [{| id := nextId w; text := JSString.trim input; completed := false |}].
Proof. intros H. cbn [apply_op]. rewrite addTask_text by exact H. reflexivity. Qed.

Lemma toggleTask_miss i w : i ∉ id <$> tasks w -> toggleTask i w = w.
Proof.
  intros H. unfold toggleTask.
  destruct (list_find (fun t => id t = i) (tasks w)) as [[k t] |] eqn:E; [| reflexivity].
  apply list_find_Some in E as (Hk & Hi & _). exfalso. apply H.
  rewrite <- Hi. apply list_elem_of_fmap_2. eapply list_elem_of_lookup_2, Hk.
Qed.

Lemma toggleTask_hit i w :
  i ∈ id <$> tasks w ->
  exists k t,
    list_find (fun t => id t = i) (tasks w) = Some (k, t)
    /\ toggleTask i w =
         renderTasks (saveTasks (set_tasks
           (<[k := {| id := id t; text := text t; completed := negb (completed t) |}]>
              (tasks w)) w)).
Proof.
  intros H. apply list_elem_of_fmap in H as (t0 & -> & Hin).
  destruct (list_find_elem_of (fun t => id t = id t0) (tasks w) t0 Hin eq_refl)
    as [[k t] E].
  exists k, t. split; [exact E |]. unfold toggleTask. rewrite E. reflexivity.
Qed.

Lemma apply_op_effect w o :
  takes_effect w o = true ->
  exists w1, apply_op w o = renderTasks (saveTasks w1)
             /\ localStorage w1 = localStorage w /\ calls w1 = calls w.
Proof.
  destruct o as [input | i | i]; cbn [takes_effect apply_op]; intros H.
  - apply bool_decide_eq_true in H. rewrite addTask_text by exact H.
    eexists. split; [reflexivity |]. split; reflexivity.
  - apply bool_decide_eq_true in H.
    destruct (toggleTask_hit i w H) as (k & t & _ & ->).
    eexists. split; [reflexivity |]. split; reflexivity.
  - eexists. split; [reflexivity |]. split; reflexivity.
Qed.

Lemma apply_op_no_effect w o :
  takes_effect w o = false ->
  tasks (apply_op w o) = tasks w
  /\ nextId (apply_op w o) = nextId w
  /\ localStorage (apply_op w o) = localStorage w
  /\ taskList (apply_op w o) = taskList w
  /\ calls (apply_op w o) =
       calls w ++ match o with
                  | Add _ => [Alert (js "Por favor, digite uma tarefa!")]
                  | _ => []
                  end.
Proof.
  destruct o as [input | i | i]; cbn [takes_effect apply_op]; intros H.
  - apply bool_decide_eq_false in H.
    assert (JSString.trim input = []) as Hb
      by (destruct (decide (JSString.trim input = [])); [assumption | contradiction]).
    rewrite addTask_blank by exact Hb.
    repeat split.
  - apply bool_decide_eq_false in H. rewrite toggleTask_miss by exact H.
    rewrite app_nil_r. repeat split.
  - discriminate.
Qed.

Lemma list_find_toggled (l : list Task) i k t :
  list_find (fun t => id t = i) l = Some (k, t) ->
  list_find (fun t => id t = i) (<[k := toggled t]> l) = Some (k, toggled t).
Proof.
  intros E. apply list_find_Some in E as (Hk & Hi & Hbefore).
  apply list_find_Some. split; [| split].
  - apply list_lookup_insert_eq. eapply lookup_lt_Some, Hk.
  - exact Hi.
  - intros j y Hj Hlt. rewrite list_lookup_insert_ne in Hj by lia.
    eapply Hbefore; eassumption.
Qed.

Lemma toggled_toggled t : toggled (toggled t) = t.
Proof. destruct t as [n s c]. unfold toggled. cbn. now rewrite negb_involutive. Qed.

Lemma ids_insert_toggled (l : list Task) k t :
  l !! k = Some t -> id <$> <[k := toggled t]> l = id <$> l.
Proof.
  intros Hk. rewrite list_fmap_insert. apply list_insert_id.
  rewrite list_lookup_fmap, Hk. reflexivity.
Qed.

Lemma tasks_toggleTask i w :
  i ∈ id <$> tasks w ->
  exists k t, list_find (fun t => id t = i) (tasks w) = Some (k, t)
              /\ tasks (toggleTask i w) = <[k := toggled t]> (tasks w).
Proof.
  intros H. destruct (toggleTask_hit i w H) as (k & t & E & ->).
  exists k, t. split; [exact E | reflexivity].
Qed.

Lemma nextId_toggleTask i w : nextId (toggleTask i w) = nextId w.
Proof.
  unfold toggleTask. destruct (list_find _ _) as [[k t] |]; reflexivity.
Qed.

Lemma ids_toggleTask i w : id <$> tasks (toggleTask i w) = id <$> tasks w.
Proof.
  destruct (decide (i ∈ id <$> tasks w)) as [H | H].
  - destruct (tasks_toggleTask i w H) as (k & t & E & ->).
    apply list_find_Some in E as (Hk & _). apply ids_insert_toggled, Hk.
  - rewrite toggleTask_miss by exact H. reflexivity.
Qed.

Lemma filter_id_idempotent i ts :
  filter (fun t => id t <> i) (filter (fun t => id t <> i) ts)
  = filter (fun t => id t <> i) ts.
Proof.
  induction ts as [| t ts IH]; [reflexivity |].
  rewrite filter_cons. destruct (decide (id t <> i)) as [H | H]; [| exact IH].
  rewrite filter_cons, decide_True by exact H. now rewrite IH.
Qed.

Lemma length_filter_id i ts :
  (length (filter (fun t => id t <> i) ts)
   + length (filter (fun t => id t = i) ts) = length ts)%nat.
Proof.
  induction ts as [| t ts IH]; [reflexivity |].
  rewrite !filter_cons. destruct (decide (id t = i)) as [H | H].
  - rewrite decide_False by (intros H'; apply H', H). cbn [length]. lia.
  - rewrite decide_True by exact H. cbn [length]. lia.
Qed.

Lemma fold_max_bound (r : list Z) : forall x,
  (x <= fold_left Z.max r x)%Z /\ Forall (fun y => (y <= fold_left Z.max r x)%Z) r.
Proof.
  induction r as [| y r IH]; intros x; cbn [fold_left].
  - split; [lia | constructor].
  - destruct (IH (Z.max x y)) as (H1 & H2). split; [lia |].
    constructor; [lia | exact H2].
Qed.

Lemma fold_max_elem (r : list Z) : forall x, fold_left Z.max r x ∈ x :: r.
Proof.
  induction r as [| y r IH]; intros x; cbn [fold_left]; [left |].
  specialize (IH (Z.max x y)). apply elem_of_cons in IH as [-> | IH].
  - destruct (Z.max_spec x y) as [[_ ->] | [_ ->]]; [right; left | left].
  - right; right; exact IH.
Qed.

Lemma first_id_bound S : Forall (fun t => (id t < first_id S)%Z) S.
Proof.
  unfold first_id. destruct S as [| t S]; [constructor |].
  cbn [fmap list_fmap Math_max].
  destruct (fold_max_bound (id <$> S) (id t)) as (H1 & H2).
  constructor; [lia |]. rewrite Forall_fmap in H2.
  eapply Forall_impl; [exact H2 |]. cbn. intros; lia.
Qed.

Lemma JSON_stringify_truthy ts : exists c s, JSON_stringify ts = c :: s.
Proof. eexists _, _. reflexivity. Qed.

(** [loadTasks] on a storage that holds the saved sequence [S]. *)
(** On a safe integer the sum of the script is the sum of [Z]. *)
Lemma add_one_safe n : JSNumber.safe_integer n -> JSNumber.add n 1 = (n + 1)%Z.
Proof.
  unfold JSNumber.safe_integer, JSNumber.add, JSNumber.round. intros H.
  destruct (Z.leb_spec (Z.abs (n + 1)) 9007199254740992); [reflexivity | lia].
Qed.

(** [loadTasks] on a storage that holds the saved sequence [S]. *)
Lemma loadTasks_hydrates st input children S :
  holds st S ->
  exists w0, loadTasks (boot st input children) = Done w0
             /\ tasks w0 = S
             /\ (Forall (fun t => JSNumber.safe_integer (id t)) S ->
                 nextId w0 = first_id S).
Proof.
  unfold holds, loadTasks. cbn [localStorage boot].
  destruct (st !! js "tasks") as [saved |]; intros H; subst.
  - destruct (JSON_stringify_truthy S) as (c & s & E). rewrite E, <- E.
    rewrite TaskJSON.JSON_parse_stringify, TaskJSON.as_Tasks_task_json.
    eexists. split; [reflexivity |].
    cbn [tasks set_tasks]. unfold first_id.
    destruct S as [| t S].
    + split; reflexivity.
    + rewrite decide_True by (cbn; lia).
      cbn [fmap list_fmap Math_max]. split; [reflexivity |].
      intros Hsafe. cbn [nextId renderTasks set_nextId]. apply add_one_safe.
      pose proof (fold_max_elem (id <$> S) (id t)) as Hin.
      change (id t :: (id <$> S)) with (id <$> t :: S) in Hin.
      apply list_elem_of_fmap in Hin as (u & -> & Hin).
      rewrite Forall_forall in Hsafe. apply Hsafe, Hin.
  - eexists. split; [reflexivity |]. split; reflexivity.
Qed.

Lemma nextId_apply_op w o :
  nextId (apply_op w o)
  = if adds o then JSNumber.add (nextId w) 1 else nextId w.
Proof.
  destruct o as [input | i | i]; cbn [apply_op adds].
  - destruct (decide (JSString.trim input = [])) as [H | H].
    + rewrite addTask_blank by exact H. reflexivity.
    + rewrite addTask_text by exact H. reflexivity.
  - apply nextId_toggleTask.
  - reflexivity.
Qed.

(** The identifiers stay distinct and below [nextId] as long as the
    counter an [add] starts from is a safe integer. *)
Lemma ids_fresh_apply_op w o :
  ids_fresh w -> (adds o = true -> JSNumber.safe_integer (nextId w)) ->
  ids_fresh (apply_op w o).
Proof.
  intros (Hnd & Hlt) Hsafe. destruct o as [input | i | i]; cbn [apply_op].
  - destruct (decide (JSString.trim input = [])) as [H | H].
    + rewrite addTask_blank by exact H. split; assumption.
    + assert (JSNumber.add (nextId w) 1 = (nextId w + 1)%Z) as Hadd.
      { apply add_one_safe, Hsafe. cbn [adds]. now rewrite decide_False. }
      rewrite addTask_text by exact H. unfold ids_fresh. cbn. rewrite Hadd.
      rewrite fmap_app. cbn [fmap list_fmap id]. split.
      * apply NoDup_app. split; [exact Hnd |]. split; [| apply NoDup_singleton].
        intros x Hx Hx'. apply list_elem_of_singleton in Hx'. subst x.
        apply list_elem_of_fmap in Hx as (t & Ht & Hin).
        rewrite Forall_forall in Hlt. specialize (Hlt t Hin). lia.
      * apply Forall_app. split.
        -- eapply Forall_impl; [exact Hlt |]. cbn. intros; lia.
        -- constructor; [cbn; lia | constructor].
  - unfold ids_fresh. rewrite ids_toggleTask, nextId_toggleTask.
    split; [exact Hnd |].
    rewrite <- (Forall_fmap id (fun n => (n < nextId w)%Z)), ids_toggleTask.
    rewrite Forall_fmap. exact Hlt.
  - unfold ids_fresh. cbn. split.
    + eapply sublist_NoDup; [exact Hnd |].
      apply fmap_sublist, sublist_filter.
    + rewrite Forall_forall in Hlt |- *. intros t Ht.
      apply list_elem_of_filter in Ht as (_ & Ht). apply Hlt, Ht.
Qed.





(** ** The handlers of the rows *)

Lemma rows_in_sync_render w : rows_in_sync (renderTasks w).
Proof. unfold rows_in_sync, renderTasks. cbn. now rewrite render_children. Qed.

Lemma rows_in_sync_apply_op w o : rows_in_sync w -> rows_in_sync (apply_op w o).
Proof.
  intros H. destruct (takes_effect w o) eqn:E.
  - destruct (apply_op_effect w o E) as (w1 & -> & _). apply rows_in_sync_render.
  - destruct (apply_op_no_effect w o E) as (H1 & _ & _ & H2 & _).
    unfold rows_in_sync. rewrite H1, H2. exact H.
Qed.

Lemma rows_in_sync_dispatch w e : rows_in_sync w -> rows_in_sync (dispatch e w).
Proof.
  intros H. destruct e as [s | | key | n | n]; cbn [dispatch].
  - exact H.
  - apply (rows_in_sync_apply_op w (Add (taskInput_value w))) in H.
    destruct w; exact H.
  - destruct (decide (key = js "Enter")); [| exact H].
    apply (rows_in_sync_apply_op w (Add (taskInput_value w))) in H.
    destruct w; exact H.
  - destruct (taskList w !! n) as [li |]; [| exact H].
    apply (rows_in_sync_apply_op w (Toggle (checkbox_click li))), H.
  - destruct (taskList w !! n) as [li |]; [| exact H].
    apply (rows_in_sync_apply_op w (Remove (deleteBtn_click li))), H.
Qed.

(** On a page whose list is empty at first, the list shown after
    [loadTasks] is in sync with the sequence. *)
Lemma rows_in_sync_loadTasks st input w0 :
  loadTasks (boot st input []) = Done w0 -> rows_in_sync w0.
Proof.
  unfold loadTasks. cbn [localStorage boot].
  destruct (st !! js "tasks") as [[| c s] |];
    try (intros [= <-]; reflexivity).
  destruct (JSON.JSON_parse (c :: s)); try discriminate.
  destruct (as_Tasks v); [| discriminate].
  intros [= <-]. apply rows_in_sync_render.
Qed.

(** The checkbox of a row shown passes [toggleTask] an identifier that is
    present: a click of the user never takes the branch of line 116 that
    does nothing. *)
Lemma click_checkbox_takes_effect w n li :
  rows_in_sync w -> taskList w !! n = Some li ->
  takes_effect w (Toggle (checkbox_click li)) = true.
Proof.
  intros Hsync Hn. cbn [takes_effect]. apply bool_decide_eq_true.
  rewrite Hsync, list_lookup_fmap in Hn.
  destruct (tasks w !! n) as [t |] eqn:Ht; [| discriminate].
  injection Hn as <-. cbn [checkbox_click row_of].
  apply list_elem_of_fmap_2. eapply list_elem_of_lookup_2, Ht.
Qed.

(** After a click on the checkbox or on the button of a row shown, the slot
    holds the serialization of the sequence. *)
Lemma click_row_persisted w n :
  rows_in_sync w -> (n < length (taskList w))%nat ->
  persisted (dispatch (Click_checkbox n) w)
  /\ persisted (dispatch (Click_deleteBtn n) w).
Proof.
  intros Hsync Hn. apply lookup_lt_is_Some in Hn as [li Hli].
  cbn [dispatch]. rewrite Hli. split.
  - pose proof (click_checkbox_takes_effect w n li Hsync Hli) as E.
    destruct (apply_op_effect w _ E) as (w1 & Hw1 & _).
    cbn [apply_op] in Hw1. rewrite Hw1. apply persisted_save_render.
  - apply persisted_save_render.
Qed.

Lemma loadTasks_fuel w : loadTasks w <> Parser_out_of_fuel.
Proof.
  unfold loadTasks.
  destruct (localStorage w !! js "tasks") as [[| c s] |]; try discriminate.
  pose proof (ParserFuel.JSON_parse_total (c :: s)) as H.
  destruct (JSON.JSON_parse (c :: s)); [| discriminate | contradiction].
  destruct (as_Tasks v); discriminate.
Qed.

End Script.

(** * The properties of the specification *)

(** C1, as the specification states it, fails: on a page that has saved
    nothing yet, [toggleTask] with an identifier no task has writes
    nothing, and the slot [tasks] stays absent while the sequence in memory
    serializes to the text of the empty array. *)
Lemma toggle_absent_not_persisted :
  ~ persisted (apply_op (boot ∅ [] []) (Toggle 1)).
Proof. unfold persisted. vm_compute. discriminate. Qed.

(** C1, amended: after [addTask] with a text that is not empty once trimmed,
    after [deleteTask], and after [toggleTask] with an identifier that is
    present, the slot [tasks] holds the serialization of the sequence in
    memory; an operation stopped by its guard ([toggleTask] with an absent
    identifier, [addTask] with a blank text) writes nothing: slot and
    sequence are what they were. *)
Theorem mutation_persisted (w : World) (o : Op) :
  if takes_effect w o then persisted (apply_op w o)
  else localStorage (apply_op w o) = localStorage w
       /\ tasks (apply_op w o) = tasks w.
Proof.
  destruct (takes_effect w o) eqn:E.
  - destruct (apply_op_effect w o E) as (w1 & -> & _).
    apply persisted_save_render.
  - destruct (apply_op_no_effect w o E) as (H1 & _ & H2 & _). auto.
Qed.




(** C3: with an input that is empty once trimmed, [addTask] only alerts:
    the sequence, its length, [nextId], the storage, the input and the list
    shown are what they were. *)
Theorem addTask_blank_rejected (w : World)
    (Hblank : JSString.trim (taskInput_value w) = []) :
  let w' := addTask w in
  calls w' = calls w ++ [Alert (js "Por favor, digite uma tarefa!")]
  /\ tasks w' = tasks w
  /\ length (tasks w') = length (tasks w)
  /\ nextId w' = nextId w
  /\ localStorage w' = localStorage w
  /\ taskInput_value w' = taskInput_value w
  /\ taskList w' = taskList w.
Proof. cbn zeta. rewrite addTask_blank by exact Hblank. repeat split. Qed.

Lemma addTask_blank_rejected_witness :
  (JSString.trim [] = [] /\ JSString.trim (js "   ") = [])
  /\ tasks (addTask (boot ∅ [] [])) = []
  /\ tasks (addTask (boot ∅ (js "   ") [])) = []
  /\ calls (addTask (boot ∅ (js "   ") []))
     = [Alert (js "Por favor, digite uma tarefa!")].
Proof.
  assert (JSString.trim [] = []) as H0 by reflexivity.
  assert (JSString.trim (js "   ") = []) as H3 by reflexivity.
  split; [split; assumption |].
  destruct (addTask_blank_rejected (boot ∅ [] []) H0) as (_ & T0 & _).
  destruct (addTask_blank_rejected (boot ∅ (js "   ") []) H3) as (C3 & T3 & _).
  repeat split; assumption.
Defined.






(** C5: for an identifier that is present, two calls of [toggleTask] in a
    row give back the sequence and [nextId] they started from; the task
    found has its flag negated after the first call and as it was after the
    second. *)
Theorem toggleTask_involution (w : World) (i : Z) (Hin : i ∈ id <$> tasks w) :
  let w1 := toggleTask i w in
  let w2 := toggleTask i w1 in
  tasks w2 = tasks w
  /\ nextId w2 = nextId w
  /\ exists k t,
       list_find (fun t => id t = i) (tasks w) = Some (k, t)
       /\ completed <$> tasks w1 !! k = Some (negb (completed t))
       /\ completed <$> tasks w2 !! k = Some (completed t).
Proof.
  cbn zeta.
  destruct (tasks_toggleTask i w Hin) as (k & t & E & H1).
  assert (i ∈ id <$> tasks (toggleTask i w)) as Hin1 by (rewrite ids_toggleTask; exact Hin).
  destruct (tasks_toggleTask i (toggleTask i w) Hin1) as (k' & t' & E' & H2).
  rewrite H1 in E'. rewrite (list_find_toggled _ _ _ _ E) in E'.
  injection E' as <- <-.
  pose proof E as (Hk & _)%list_find_Some.
  assert (tasks (toggleTask i (toggleTask i w)) = tasks w) as Hback.
  { rewrite H2, H1, list_insert_insert_eq, toggled_toggled.
    apply list_insert_id, Hk. }
  split; [exact Hback |].
  split; [rewrite !nextId_toggleTask; reflexivity |].
  exists k, t. split; [exact E |]. split.
  - rewrite H1, list_lookup_insert_eq by (eapply lookup_lt_Some, Hk). reflexivity.
  - rewrite Hback, Hk. reflexivity.
Qed.

Lemma toggleTask_involution_witness :
  let w := set_tasks [{| id := 1; text := js "Buy milk"; completed := false |}]
                     (boot ∅ [] []) in
  (1%Z ∈ id <$> tasks w)
  /\ (completed <$> tasks (toggleTask 1 w)) = [true]
  /\ tasks (toggleTask 1 (toggleTask 1 w)) = tasks w.
Proof.
  cbn zeta.
  assert (1%Z ∈ id <$> tasks (set_tasks
            [{| id := 1; text := js "Buy milk"; completed := false |}]
            (boot ∅ [] []))) as Hin by (cbn; left).
  split; [exact Hin |]. split; [vm_compute; reflexivity |].
  exact (proj1 (toggleTask_involution _ 1 Hin)).
Defined.

(** C6: a second [deleteTask] with the same identifier changes neither the
    sequence, nor [nextId], nor the storage, nor the list shown;
    [deleteTask] leaves [nextId] as it was; and from three tasks with
    identifiers 1, 2, 3, [deleteTask(2)] leaves the first and the third, in
    this order. *)
Theorem deleteTask_idempotent (w : World) (i : Z) :
  let w1 := deleteTask i w in
  let w2 := deleteTask i w1 in
  tasks w2 = tasks w1
  /\ nextId w2 = nextId w1
  /\ localStorage w2 = localStorage w1
  /\ taskList w2 = taskList w1
  /\ nextId w1 = nextId w
  /\ forall x1 c1 x2 c2 x3 c3,
       let t1 := {| id := 1; text := x1; completed := c1 |} in
       let t2 := {| id := 2; text := x2; completed := c2 |} in
       let t3 := {| id := 3; text := x3; completed := c3 |} in
       tasks (deleteTask 2 (set_tasks [t1; t2; t3] w)) = [t1; t3]
       /\ nextId (deleteTask 2 (set_tasks [t1; t2; t3] w)) = nextId w.
Proof.
  cbn zeta.
  assert (tasks (deleteTask i (deleteTask i w)) = tasks (deleteTask i w)) as Ht
    by apply filter_id_idempotent.
  split; [exact Ht |]. split; [reflexivity |].
  split.
  { change (localStorage (deleteTask i (deleteTask i w)))
      with (<[js "tasks" := JSON_stringify (tasks (deleteTask i (deleteTask i w)))]>
              (localStorage (deleteTask i w))).
    rewrite Ht. apply insert_id. apply lookup_insert_eq. }
  split.
  { change (taskList (deleteTask i (deleteTask i w)))
      with (fold_left (fun ul task => ul ++ [row_of task])
              (tasks (deleteTask i (deleteTask i w))) []).
    rewrite Ht. reflexivity. }
  split; [reflexivity |].
  intros. split; reflexivity.
Qed.

(** C7: [JSON.parse] reads the text [JSON.stringify] gives for a sequence
    of tasks and yields that sequence; so [loadTasks], on the storage
    [saveTasks] wrote, sets [tasks] to the sequence saved. *)
Theorem load_save_roundtrip (S : list Task) :
  (exists v, JSON.JSON_parse (JSON_stringify S) = JSON.Value v
             /\ as_Tasks v = Some S)
  /\ forall w input children,
       exists w', loadTasks (boot (localStorage (saveTasks (set_tasks S w)))
                                  input children) = Done w'
                  /\ tasks w' = S.
Proof.
  split.
  - exists (JSON.JArr (task_json <$> S)).
    split; [apply TaskJSON.JSON_parse_stringify | apply TaskJSON.as_Tasks_task_json].
  - intros w input children.
    destruct (loadTasks_hydrates (localStorage (saveTasks (set_tasks S w)))
                input children S) as (w' & H1 & H2 & _).
    + unfold holds. cbn. rewrite lookup_insert_eq. reflexivity.
    + exists w'. split; assumption.
Qed.

(** C9: for an identifier that is present, [toggleTask] negates the flag of
    the first task with that identifier and changes nothing else: the tasks
    before it and after it, its [id] and [text], the length of the sequence
    and [nextId] are as they were. *)
Theorem toggleTask_frame (w : World) (i : Z) (Hin : i ∈ id <$> tasks w) :
  exists before t after,
    tasks w = before ++ t :: after
    /\ id t = i
    /\ Forall (fun u => id u <> i) before
    /\ tasks (toggleTask i w)
       = before ++ {| id := id t; text := text t;
                      completed := negb (completed t) |} :: after
    /\ length (tasks (toggleTask i w)) = length (tasks w)
    /\ nextId (toggleTask i w) = nextId w.
Proof.
  destruct (tasks_toggleTask i w Hin) as (k & t & E & H1).
  apply list_find_Some in E as (Hk & Hi & Hbefore).
  exists (take k (tasks w)), t, (drop (Datatypes.S k) (tasks w)).
  split; [symmetry; apply take_drop_middle, Hk |].
  split; [exact Hi |].
  split.
  { apply Forall_forall. intros u Hu.
    apply list_elem_of_lookup in Hu as (j & Hj).
    pose proof (lookup_lt_Some _ _ _ Hj) as Hlen. rewrite length_take in Hlen.
    rewrite lookup_take_lt in Hj by lia. eapply Hbefore; [exact Hj | lia]. }
  split.
  { rewrite H1. apply insert_take_drop. eapply lookup_lt_Some, Hk. }
  split; [rewrite H1; apply length_insert | apply nextId_toggleTask].
Qed.

Lemma toggleTask_frame_witness :
  let a := {| id := 1; text := js "a"; completed := false |} in
  let b := {| id := 2; text := js "b"; completed := true |} in
  let w := set_tasks [a; b; a] (boot ∅ [] []) in
  (2%Z ∈ id <$> tasks w)
  /\ exists before t after,
       tasks w = before ++ t :: after
       /\ id t = 2%Z
       /\ Forall (fun u => id u <> 2%Z) before
       /\ tasks (toggleTask 2 w)
          = before ++ {| id := id t; text := text t;
                         completed := negb (completed t) |} :: after
       /\ length (tasks (toggleTask 2 w)) = length (tasks w)
       /\ nextId (toggleTask 2 w) = nextId w.
Proof.
  cbn zeta.
  assert (2%Z ∈ id <$> tasks (set_tasks
            [{| id := 1; text := js "a"; completed := false |};
             {| id := 2; text := js "b"; completed := true |};
             {| id := 1; text := js "a"; completed := false |}]
            (boot ∅ [] []))) as Hin by (cbn; right; left).
  split; [exact Hin |].
  exact (toggleTask_frame _ 2 Hin).
Defined.

(** C10: in every state, with or without tasks that share an identifier,
    after [deleteTask(i)] no task of the sequence has the identifier [i],
    and the tasks with another identifier are all kept, in the order they
    had; hydration checks no uniqueness, so such states arise. *)
Theorem deleteTask_removes_all (w : World) (i : Z) :
  Forall (fun t => id t <> i) (tasks (deleteTask i w))
  /\ sublist (tasks (deleteTask i w)) (tasks w)
  /\ (forall t, t ∈ tasks w -> id t <> i -> t ∈ tasks (deleteTask i w))
  /\ (length (tasks (deleteTask i w))
      + length (filter (fun t => id t = i) (tasks w)) = length (tasks w))%nat
  /\ exists st w0,
       loadTasks (boot st [] []) = Done w0
       /\ ((id <$> tasks w0) = [1; 1; 2])%Z
       /\ ((id <$> tasks (deleteTask 1 w0)) = [2])%Z.
Proof.
  change (tasks (deleteTask i w)) with (filter (fun t => id t <> i) (tasks w)).
  split.
  { apply Forall_forall. intros t Ht. apply list_elem_of_filter in Ht. tauto. }
  split; [apply sublist_filter |].
  split.
  { intros t Ht Hne. apply list_elem_of_filter. auto. }
  split; [apply length_filter_id |].
  exists {[ js "tasks" :=
              JSON_stringify [{| id := 1; text := js "a"; completed := false |};
                              {| id := 1; text := js "b"; completed := true |};
                              {| id := 2; text := js "c"; completed := false |}] ]}.
  eexists. split; [vm_compute; reflexivity |].
  split; vm_compute; reflexivity.
Qed.

(** * Further properties of the script *)

Section Session.
Implicit Types (w : World) (i : Z) (ts : list Task) (o : Op) (e : UIEvent).

Lemma set_taskInput_value_same w : set_taskInput_value (taskInput_value w) w = w.
Proof. destruct w. reflexivity. Qed.

Lemma addTask_apply_op w : addTask w = apply_op w (Add (taskInput_value w)).
Proof. cbn [apply_op]. now rewrite set_taskInput_value_same. Qed.

(** Every event is the typing of a text, an operation of the store, or
    nothing. *)
Lemma dispatch_cases e w :
  (exists s, dispatch e w = set_taskInput_value s w)
  \/ (exists o, dispatch e w = apply_op w o)
  \/ dispatch e w = w.
Proof.
  destruct e as [s | | key | n | n]; cbn [dispatch].
  - left. eexists. reflexivity.
  - right; left. eexists. apply addTask_apply_op.
  - destruct (decide (key = js "Enter")); [| right; right; reflexivity].
    right; left. eexists. apply addTask_apply_op.
  - destruct (taskList w !! n) as [li |]; [| right; right; reflexivity].
    right; left. exists (Toggle (checkbox_click li)). reflexivity.
  - destruct (taskList w !! n) as [li |]; [| right; right; reflexivity].
    right; left. exists (Remove (deleteBtn_click li)). reflexivity.
Qed.

Lemma session_snoc w es e : session w (es ++ [e]) = dispatch e (session w es).
Proof. unfold session. rewrite fold_left_app. reflexivity. Qed.

Lemma rows_in_sync_session es : forall w, rows_in_sync w -> rows_in_sync (session w es).
Proof.
  induction es as [| e es IH]; intros w H; [exact H |].
  apply (IH (dispatch e w)), rows_in_sync_dispatch, H.
Qed.

Lemma persisted_apply_op w o : persisted w -> persisted (apply_op w o).
Proof.
  intros H. destruct (takes_effect w o) eqn:E.
  - destruct (apply_op_effect w o E) as (w1 & -> & _). apply persisted_save_render.
  - destruct (apply_op_no_effect w o E) as (H1 & _ & H2 & _).
    unfold persisted. rewrite H1, H2. exact H.
Qed.

(** A session that keeps the counter within the safe integers: the
    identifiers stay distinct and below [nextId]. *)
Lemma session_within_safe es : forall w,
  ids_fresh w ->
  (- 9007199254740992 < nextId w)%Z ->
  (nextId w + Z.of_nat (length es) <= 9007199254740992)%Z ->
  ids_fresh (session w es).
Proof.
  induction es as [| e es IH]; intros w Hf Hlo Hhi; [exact Hf |].
  cbn [length] in Hhi.
  change (session w (e :: es)) with (session (dispatch e w) es).
  assert (JSNumber.safe_integer (nextId w)) as Hsafe
    by (unfold JSNumber.safe_integer; lia).
  destruct (dispatch_cases e w) as [[s ->] | [[o ->] | ->]].
  - apply IH; [exact Hf | exact Hlo | cbn [nextId set_taskInput_value]; lia].
  - assert (nextId (apply_op w o) = (nextId w + Z.b2z (adds o))%Z) as Hn.
    { rewrite nextId_apply_op. destruct (adds o); cbn [Z.b2z]; [| lia].
      apply add_one_safe, Hsafe. }
    apply IH.
    + apply ids_fresh_apply_op; [exact Hf | intros _; exact Hsafe].
    + rewrite Hn. destruct (adds o); cbn [Z.b2z]; lia.
    + rewrite Hn. destruct (adds o); cbn [Z.b2z]; lia.
  - apply IH; [exact Hf | exact Hlo | lia].
Qed.

(** ** White space *)

Lemma trimStart_nil s : JSString.trimStart s = [] <-> blank s.
Proof.
  unfold blank. induction s as [| c r IH]; cbn [JSString.trimStart].
  - split; [constructor | reflexivity].
  - destruct (JSString.is_white_space c) eqn:E.
    + rewrite IH. split; [intros H; constructor; assumption |].
      intros H. apply Forall_cons in H as [_ H]. exact H.
    + split; [discriminate |]. intros H. apply Forall_cons in H as [H _]. congruence.
Qed.

Lemma trimStart_head s c r :
  JSString.trimStart s = c :: r -> JSString.is_white_space c = false.
Proof.
  induction s as [| d s IH]; cbn [JSString.trimStart]; [discriminate |].
  destruct (JSString.is_white_space d) eqn:E; [exact IH |].
  intros [= -> _]. exact E.
Qed.

Lemma trimStart_suffix s : exists p, s = p ++ JSString.trimStart s /\ blank p.
Proof.
  induction s as [| d s (p & IH & Hp)]; cbn [JSString.trimStart].
  - exists []. split; [reflexivity | constructor].
  - destruct (JSString.is_white_space d) eqn:E.
    + exists (d :: p). split; [cbn; congruence | constructor; assumption].
    + exists []. split; [reflexivity | constructor].
Qed.

Lemma blank_rev s : blank (rev s) -> blank s.
Proof. unfold blank. intros H. apply Forall_rev in H. now rewrite rev_involutive in H. Qed.

Lemma trim_nil s : JSString.trim s = [] <-> blank s.
Proof.
  unfold JSString.trim, JSString.trimEnd. split.
  - intros H.
    assert (JSString.trimStart (rev (JSString.trimStart s)) = []) as Hv.
    { destruct (JSString.trimStart (rev (JSString.trimStart s))); [reflexivity |].
      cbn [rev] in H. destruct (rev l); discriminate. }
    apply trimStart_nil, blank_rev in Hv.
    destruct (JSString.trimStart s) as [| c r] eqn:E; [apply trimStart_nil, E |].
    apply trimStart_head in E. apply Forall_cons in Hv as [Hc _]. congruence.
  - intros H. apply trimStart_nil in H. rewrite H. reflexivity.
Qed.

Lemma trimmed_trim s : JSString.trim s <> [] -> trimmed (JSString.trim s).
Proof.
  unfold JSString.trim, JSString.trimEnd. intros Hne.
  destruct (trimStart_suffix (rev (JSString.trimStart s))) as (p & Hp & _).
  destruct (JSString.trimStart (rev (JSString.trimStart s))) as [| c r] eqn:Ev;
    [contradiction |].
  pose proof (trimStart_head _ _ _ Ev) as Hc.
  assert (JSString.trimStart s = rev (c :: r) ++ rev p) as Hu.
  { rewrite <- rev_app_distr, <- Hp, rev_involutive. reflexivity. }
  split.
  - destruct (rev (c :: r)) as [| x y] eqn:Er; [contradiction |].
    cbn [app] in Hu. eapply trimStart_head, Hu.
  - cbn [rev]. rewrite last_snoc. exact Hc.
Qed.

(** ** Lists of tasks *)

Lemma filter_all i ts :
  Forall (fun t => id t <> i) ts -> filter (fun t => id t <> i) ts = ts.
Proof.
  induction ts as [| t ts IH]; intros H; [reflexivity |].
  apply Forall_cons in H as [Ht H].
  rewrite filter_cons, decide_True by exact Ht. now rewrite IH.
Qed.

Lemma ids_lookup_unique ts n j t u :
  NoDup (id <$> ts) -> ts !! n = Some t -> ts !! j = Some u -> id u = id t -> j = n.
Proof.
  intros Hnd Hn Hj Hid.
  apply (NoDup_lookup (id <$> ts) j n (id t)); [exact Hnd | |].
  - rewrite list_lookup_fmap, Hj. cbn. now rewrite Hid.
  - rewrite list_lookup_fmap, Hn. reflexivity.
Qed.

Lemma list_find_unique ts n t :
  NoDup (id <$> ts) -> ts !! n = Some t ->
  list_find (fun u => id u = id t) ts = Some (n, t).
Proof.
  intros Hnd Hn. apply list_find_Some. split; [exact Hn |]. split; [reflexivity |].
  intros j u Hj Hlt Hid.
  pose proof (ids_lookup_unique ts n j t u Hnd Hn Hj Hid). lia.
Qed.

Lemma filter_unique ts n t :
  NoDup (id <$> ts) -> ts !! n = Some t ->
  filter (fun u => id u <> id t) ts = delete n ts.
Proof.
  intros Hnd Hn. rewrite delete_take_drop.
  rewrite <- (take_drop_middle ts n t Hn) at 1.
  rewrite filter_app, filter_cons, decide_False by (intros H; apply H; reflexivity).
  rewrite !filter_all; [reflexivity | |].
  - apply Forall_forall. intros u Hu Hid.
    apply list_elem_of_lookup in Hu as (j & Hj).
    rewrite lookup_drop in Hj.
    pose proof (ids_lookup_unique ts n _ t u Hnd Hn Hj Hid). lia.
  - apply Forall_forall. intros u Hu Hid.
    apply list_elem_of_lookup in Hu as (j & Hj).
    pose proof (lookup_lt_Some _ _ _ Hj) as Hlen. rewrite length_take in Hlen.
    rewrite lookup_take_lt in Hj by lia.
    pose proof (ids_lookup_unique ts n _ t u Hnd Hn Hj Hid). lia.
Qed.

Lemma filter_insert_same_id ts k t x i :
  ts !! k = Some t -> id t = i -> id x = i ->
  filter (fun u => id u <> i) (<[k := x]> ts) = filter (fun u => id u <> i) ts.
Proof.
  intros Hk Ht Hx.
  rewrite insert_take_drop by (eapply lookup_lt_Some, Hk).
  rewrite <- (take_drop_middle ts k t Hk) at 3.
  rewrite !filter_app, !filter_cons.
  rewrite !decide_False by (intros H; apply H; assumption). reflexivity.
Qed.

(** What [loadTasks] returns when it returns. *)
Lemma loadTasks_Done w w' :
  loadTasks w = Done w' ->
  (slot_falsy w /\ w' = w)
  \/ (~ slot_falsy w
      /\ exists ts,
           w' = renderTasks
                  (if decide (0 < length ts)%nat
                   then match Math_max (id <$> ts) with
                        | Some m => set_nextId (JSNumber.add m 1) (set_tasks ts w)
                        | None => set_tasks ts w
                        end
                   else set_tasks ts w)).
Proof.
  unfold loadTasks, slot_falsy.
  destruct (localStorage w !! js "tasks") as [[| c s] |].
  - intros [= <-]. left. auto.
  - destruct (JSON.JSON_parse (c :: s)); try discriminate.
    destruct (as_Tasks v) as [ts |]; [| discriminate].
    intros [= <-]. right. split; [intros [H | H]; discriminate |].
    exists ts. reflexivity.
  - intros [= <-]. left. auto.
Qed.

Lemma loadTasks_storage w w' :
  loadTasks w = Done w' -> localStorage w' = localStorage w.
Proof.
  intros H. destruct (loadTasks_Done w w' H) as [(_ & ->) | (_ & ts & ->)];
    [reflexivity |].
  destruct (decide (0 < length ts)%nat); [| reflexivity].
  destruct (Math_max (id <$> ts)); reflexivity.
Qed.

Lemma up_to_date_dispatch e w : up_to_date w -> up_to_date (dispatch e w).
Proof.
  intros H. destruct (dispatch_cases e w) as [[s ->] | [[o ->] | ->]];
    [exact H | | exact H].
  destruct (takes_effect w o) eqn:E.
  - destruct (apply_op_effect w o E) as (w1 & -> & _).
    left. apply persisted_save_render.
  - destruct (apply_op_no_effect w o E) as (H1 & _ & H2 & _).
    unfold up_to_date, persisted. rewrite H1, H2. exact H.
Qed.

Lemma persisted_dispatch e w : persisted w -> persisted (dispatch e w).
Proof.
  intros H. destruct (dispatch_cases e w) as [[s ->] | [[o ->] | ->]];
    [exact H | | exact H].
  apply persisted_apply_op, H.
Qed.

Lemma row_shown w n t :
  rows_in_sync w -> tasks w !! n = Some t -> taskList w !! n = Some (row_of t).
Proof. intros Hs Hn. rewrite Hs, list_lookup_fmap, Hn. reflexivity. Qed.

Lemma row_missing w n :
  rows_in_sync w -> tasks w !! n = None -> taskList w !! n = None.
Proof. intros Hs Hn. rewrite Hs, list_lookup_fmap, Hn. reflexivity. Qed.

Lemma toggleTask_pipeline i w : i ∈ id <$> tasks w -> pipeline w (toggleTask i w).
Proof.
  intros H. destruct (toggleTask_hit i w H) as (k & t & _ & ->).
  apply (save_render_pipeline (set_tasks _ w)).
Qed.

(** Negating the flag of a task with another identifier does not change
    what [find] finds. *)
Lemma list_find_toggled_other ts i j k' t' :
  i <> j -> ts !! k' = Some t' -> id t' = j ->
  list_find (fun u => id u = i) (<[k' := toggled t']> ts)
  = list_find (fun u => id u = i) ts.
Proof.
  intros Hne Hk' Hj.
  destruct (list_find (fun u => id u = i) ts) as [[k t] |] eqn:E.
  - apply list_find_Some in E as (Hk & Hi & Hbefore).
    assert (k <> k') as Hkk by (intros ->; rewrite Hk in Hk'; congruence).
    apply list_find_Some. split; [| split].
    + rewrite list_lookup_insert_ne by congruence. exact Hk.
    + exact Hi.
    + intros n u Hn Hlt. destruct (decide (n = k')) as [-> | Hnk].
      * rewrite list_lookup_insert_eq in Hn by (eapply lookup_lt_Some, Hk').
        injection Hn as <-. cbn [id toggled]. congruence.
      * rewrite list_lookup_insert_ne in Hn by congruence.
        eapply Hbefore; eassumption.
  - apply list_find_None in E. apply list_find_None.
    apply Forall_insert; [exact E |]. cbn [id toggled]. congruence.
Qed.

End Session.

(** X1: [renderTasks] builds one row for each task, in the order of the
    sequence, whatever the list showed before; it touches neither the store,
    nor the input, nor the storage; each row has its class and its checkbox
    in the state of the task and both handlers on the identifier of the
    task; a second rendering shows the same list. *)
Theorem renderTasks_rebuilds (w : World) :
  taskList (renderTasks w) = row_of <$> tasks w
  /\ length (taskList (renderTasks w)) = length (tasks w)
  /\ (forall n t, tasks w !! n = Some t ->
        taskList (renderTasks w) !! n
        = Some {| li_completed := completed t; checkbox_checked := completed t;
                  span_textContent := text t; checkbox_click := id t;
                  deleteBtn_click := id t |})
  /\ (forall w2, tasks w2 = tasks w ->
        taskList (renderTasks w2) = taskList (renderTasks w))
  /\ taskList (renderTasks (renderTasks w)) = taskList (renderTasks w)
  /\ tasks (renderTasks w) = tasks w
  /\ nextId (renderTasks w) = nextId w
  /\ taskInput_value (renderTasks w) = taskInput_value w
  /\ localStorage (renderTasks w) = localStorage w.
Proof.
  assert (forall v, taskList (renderTasks v) = row_of <$> tasks v) as Hrows.
  { intros v. unfold renderTasks. cbn. now rewrite render_children. }
  split; [apply Hrows |].
  split; [rewrite Hrows; apply length_fmap |].
  split.
  { intros n t Hn. rewrite Hrows, list_lookup_fmap, Hn. reflexivity. }
  split; [intros w2 H2; rewrite !Hrows, H2; reflexivity |].
  split; [rewrite !Hrows; reflexivity |].
  repeat split.
Qed.

(** X2: on a storage whose slot is absent, empty, or holds a sequence as
    [saveTasks] writes it, [loadTasks] returns and has only read the
    storage: the storage and the input are what they were and no alert was
    shown.  On an absent or empty slot it changes nothing and renders
    nothing; otherwise it sets [tasks] to the saved sequence and renders
    once, the list showing that sequence; [nextId] is untouched when the
    sequence is empty and, when the identifiers are safe integers, one more
    than the greatest of them otherwise, above every identifier. *)
Theorem loadTasks_reads_only (w : World) (S : list Task)
    (Hslot : slot_falsy w
             \/ localStorage w !! js "tasks" = Some (JSON_stringify S)) :
  exists w',
    loadTasks w = Done w'
    /\ localStorage w' = localStorage w
    /\ taskInput_value w' = taskInput_value w
    /\ (slot_falsy w -> w' = w)
    /\ (~ slot_falsy w ->
        tasks w' = S
        /\ calls w' = calls w ++ [Render (row_of <$> S)]
        /\ taskList w' = row_of <$> S
        /\ (S = [] -> nextId w' = nextId w)
        /\ (S <> [] -> Forall (fun t => JSNumber.safe_integer (id t)) S ->
            nextId w' = first_id S
            /\ Forall (fun t => (id t < nextId w')%Z) S)).
Proof.
  assert (forall v, taskList (renderTasks v) = row_of <$> tasks v
                    /\ calls (renderTasks v) = calls v ++ [Render (row_of <$> tasks v)])
    as Hrows.
  { intros v. unfold renderTasks. cbn. now rewrite render_children. }
  destruct (localStorage w !! js "tasks") as [[| c s] |] eqn:E.
  - exists w. unfold loadTasks. rewrite E.
    split; [reflexivity |]. split; [reflexivity |]. split; [reflexivity |].
    split; [reflexivity |]. intros Hn. exfalso. apply Hn. right. exact E.
  - assert (c :: s = JSON_stringify S) as Hs.
    { destruct Hslot as [[F | F] | F]; congruence. }
    unfold loadTasks. rewrite E, Hs.
    destruct (JSON_stringify_truthy S) as (c' & s' & E'). rewrite E', <- E'.
    rewrite TaskJSON.JSON_parse_stringify, TaskJSON.as_Tasks_task_json.
    eexists. split; [reflexivity |].
    cbn [tasks set_tasks]. destruct S as [| t S].
    + rewrite decide_False by (cbn; lia).
      split; [reflexivity |]. split; [reflexivity |].
      split; [intros [F | F]; rewrite E in F; discriminate |]. intros _.
      destruct (Hrows (set_tasks [] w)) as (H1 & H2).
      split; [reflexivity |]. split; [exact H2 |]. split; [exact H1 |].
      split; [reflexivity |]. intros Hne. contradiction.
    + rewrite decide_True by (cbn; lia). cbn [fmap list_fmap Math_max].
      split; [reflexivity |]. split; [reflexivity |].
      split; [intros [F | F]; rewrite E in F; discriminate |]. intros _.
      destruct (Hrows (set_nextId (JSNumber.add (fold_left Z.max (id <$> S) (id t)) 1)
                         (set_tasks (t :: S) w))) as (H1 & H2).
      split; [reflexivity |]. split; [exact H2 |]. split; [exact H1 |].
      split; [discriminate |]. intros _ Hsafe.
      assert (JSNumber.add (fold_left Z.max (id <$> S) (id t)) 1
              = first_id (t :: S)) as Hn.
      { unfold first_id. cbn [fmap list_fmap Math_max]. apply add_one_safe.
        pose proof (fold_max_elem (id <$> S) (id t)) as Hin.
        change (id t :: (id <$> S)) with (id <$> t :: S) in Hin.
        apply list_elem_of_fmap in Hin as (u & -> & Hin).
        rewrite Forall_forall in Hsafe. apply Hsafe, Hin. }
      cbn [nextId renderTasks set_nextId]. rewrite Hn.
      split; [reflexivity | apply first_id_bound].
  - exists w. unfold loadTasks. rewrite E.
    split; [reflexivity |]. split; [reflexivity |]. split; [reflexivity |].
    split; [reflexivity |]. intros Hn. exfalso. apply Hn. left. exact E.
Qed.

Lemma loadTasks_reads_only_witness :
  let S := [{| id := 4; text := js "a"; completed := true |}] in
  let st : gmap jsstring jsstring :=
    {[ js "tasks" := JSON_stringify S; js "theme" := js "dark" ]} in
  let w := boot st (js "x") [] in
  (slot_falsy w \/ localStorage w !! js "tasks" = Some (JSON_stringify S))
  /\ exists w',
       loadTasks w = Done w'
       /\ localStorage w' = st
       /\ taskInput_value w' = js "x"
       /\ tasks w' = S
       /\ nextId w' = 5%Z.
Proof.
  intros S st w.
  assert (slot_falsy w \/ localStorage w !! js "tasks" = Some (JSON_stringify S))
    as Hslot by (right; vm_compute; reflexivity).
  split; [exact Hslot |].
  destruct (loadTasks_reads_only w S Hslot) as (w' & Hd & H1 & H2 & _ & H4).
  exists w'. split; [exact Hd |]. split; [exact H1 |]. split; [exact H2 |].
  destruct H4 as (Ht & _ & _ & _ & Hn).
  { intros [F | F]; vm_compute in F; discriminate. }
  split; [exact Ht |].
  destruct Hn as (Hn & _); [discriminate | |].
  - constructor; [unfold JSNumber.safe_integer; cbn; lia | constructor].
  - rewrite Hn. reflexivity.
Defined.

(** X3: on a page whose list is empty at first and whose storage holds a
    saved sequence, or nothing, [loadTasks] returns and the list shown is
    the rendering of the sequence in memory after every event: one row for
    each task, in order. *)
Theorem session_rows_in_sync (st : gmap jsstring jsstring) (S : list Task)
    (input : jsstring) (es : list UIEvent) (Hst : holds st S) :
  exists w0,
    loadTasks (boot st input []) = Done w0
    /\ taskList (session w0 es) = row_of <$> tasks (session w0 es)
    /\ length (taskList (session w0 es)) = length (tasks (session w0 es)).
Proof.
  destruct (loadTasks_hydrates st input [] S Hst) as (w0 & Hload & _).
  exists w0. split; [exact Hload |].
  assert (rows_in_sync (session w0 es)) as H.
  { apply rows_in_sync_session. eapply rows_in_sync_loadTasks, Hload. }
  split; [exact H |]. rewrite H. apply length_fmap.
Qed.

Lemma session_rows_in_sync_witness :
  let S := [{| id := 4; text := js "a"; completed := true |}] in
  let st : gmap jsstring jsstring := {[ js "tasks" := JSON_stringify S ]} in
  let es := [Type_text (js " b "); Keypress (js "Enter"); Click_checkbox 1;
             Click_deleteBtn 0; Type_text (js "  "); Click_addBtn] in
  holds st S
  /\ exists w0,
       loadTasks (boot st [] []) = Done w0
       /\ taskList (session w0 es) = row_of <$> tasks (session w0 es)
       /\ tasks (session w0 es) = [{| id := 5; text := js "b"; completed := true |}].
Proof.
  intros S st es.
  assert (holds st S) as Hst
    by (unfold holds, st; rewrite lookup_singleton_eq; reflexivity).
  split; [exact Hst |].
  destruct (session_rows_in_sync st S [] es Hst) as (w0 & Hload & Hrows & _).
  exists w0. split; [exact Hload |]. split; [exact Hrows |].
  assert (Done w0 = loadTasks (boot st [] [])) as E by (symmetry; exact Hload).
  vm_compute in E. injection E as ->. vm_compute. reflexivity.
Defined.

(** X4: from a storage that holds a saved sequence, or nothing, the storage
    is up to date after every event of a session: the slot holds the
    serialization of the sequence in memory, or nothing was saved yet and
    the sequence is still empty.  When the storage held a saved sequence at
    first, the slot holds the serialization of the sequence in memory
    throughout. *)
Theorem session_up_to_date (st : gmap jsstring jsstring) (S : list Task)
    (input : jsstring) (es : list UIEvent) (Hst : holds st S) :
  exists w0,
    loadTasks (boot st input []) = Done w0
    /\ up_to_date (session w0 es)
    /\ (st !! js "tasks" <> None -> persisted (session w0 es)).
Proof.
  destruct (loadTasks_hydrates st input [] S Hst) as (w0 & Hload & Ht & _).
  exists w0. split; [exact Hload |].
  assert (localStorage w0 = st) as Hs.
  { apply loadTasks_storage in Hload. exact Hload. }
  assert (up_to_date w0) as Hup.
  { unfold up_to_date, persisted, holds in *. rewrite Hs, Ht.
    destruct (st !! js "tasks") as [saved |]; [left; congruence | right; auto]. }
  assert (forall es' w, up_to_date w -> up_to_date (session w es')) as Hinv.
  { induction es' as [| e es' IH]; intros w H; [exact H |].
    apply (IH (dispatch e w)), up_to_date_dispatch, H. }
  assert (forall es' w, persisted w -> persisted (session w es')) as Hinv'.
  { induction es' as [| e es' IH]; intros w H; [exact H |].
    apply (IH (dispatch e w)), persisted_dispatch, H. }
  split; [apply Hinv, Hup |].
  intros Hsome. apply Hinv'. destruct Hup as [Hp | (_ & Hnone)]; [exact Hp |].
  rewrite Hs in Hnone. contradiction.
Qed.

Lemma session_up_to_date_witness :
  let S := [{| id := 4; text := js "a"; completed := true |}] in
  let st : gmap jsstring jsstring := {[ js "tasks" := JSON_stringify S ]} in
  let es := [Click_checkbox 0; Type_text (js "b"); Click_addBtn; Click_deleteBtn 0] in
  holds st S
  /\ exists w0,
       loadTasks (boot st [] []) = Done w0
       /\ up_to_date (session w0 es)
       /\ (st !! js "tasks" <> None -> persisted (session w0 es)).
Proof.
  intros S st es.
  assert (holds st S) as Hst
    by (unfold holds, st; rewrite lookup_singleton_eq; reflexivity).
  split; [exact Hst |]. exact (session_up_to_date st S [] es Hst).
Defined.

(** X5: the checkbox of the row shown for a task negates the flag of the
    first task of the sequence with the identifier of that task, and
    changes no other task: the task of the row itself when the identifiers
    are distinct, an earlier one when the identifier is shared. *)
Theorem click_checkbox_first_match (w : World) (n : nat) (t : Task)
    (Hsync : rows_in_sync w) (Hn : tasks w !! n = Some t) :
  exists k t',
    (k <= n)%nat
    /\ tasks w !! k = Some t'
    /\ id t' = id t
    /\ Forall (fun u => id u <> id t) (take k (tasks w))
    /\ tasks (dispatch (Click_checkbox n) w) = <[k := toggled t']> (tasks w)
    /\ (NoDup (id <$> tasks w) -> k = n /\ t' = t).
Proof.
  cbn [dispatch]. rewrite (row_shown w n t Hsync Hn). cbn [checkbox_click row_of].
  assert (id t ∈ id <$> tasks w) as Hin.
  { apply list_elem_of_fmap_2. eapply list_elem_of_lookup_2, Hn. }
  destruct (tasks_toggleTask (id t) w Hin) as (k & t' & E & Htasks).
  apply list_find_Some in E as (Hk & Hid & Hbefore).
  assert (k <= n)%nat as Hle.
  { destruct (decide (k <= n)%nat) as [H | H]; [exact H |].
    exfalso. apply (Hbefore n t Hn); [lia | reflexivity]. }
  exists k, t'. split; [exact Hle |]. split; [exact Hk |]. split; [exact Hid |].
  split.
  { apply Forall_forall. intros u Hu.
    apply list_elem_of_lookup in Hu as (j & Hj).
    pose proof (lookup_lt_Some _ _ _ Hj) as Hlen. rewrite length_take in Hlen.
    rewrite lookup_take_lt in Hj by lia. eapply Hbefore; [exact Hj | lia]. }
  split; [exact Htasks |].
  intros Hnd.
  pose proof (ids_lookup_unique (tasks w) n k t t' Hnd Hn Hk Hid) as ->.
  split; [reflexivity | congruence].
Qed.

Lemma click_checkbox_first_match_witness :
  let a := {| id := 1; text := js "a"; completed := false |} in
  let b := {| id := 1; text := js "b"; completed := false |} in
  let w := renderTasks (set_tasks [a; b] (boot ∅ [] [])) in
  rows_in_sync w /\ tasks w !! 1%nat = Some b
  /\ (exists k t',
        (k <= 1)%nat
        /\ tasks w !! k = Some t'
        /\ id t' = id b
        /\ Forall (fun u => id u <> id b) (take k (tasks w))
        /\ tasks (dispatch (Click_checkbox 1) w) = <[k := toggled t']> (tasks w)
        /\ (NoDup (id <$> tasks w) -> k = 1%nat /\ t' = b))
  /\ tasks (dispatch (Click_checkbox 1) w)
     = [{| id := 1; text := js "a"; completed := true |}; b].
Proof.
  intros a b w.
  assert (rows_in_sync w) as Hsync by reflexivity.
  assert (tasks w !! 1%nat = Some b) as Hn by reflexivity.
  split; [exact Hsync |]. split; [exact Hn |].
  split; [exact (click_checkbox_first_match w 1 b Hsync Hn) |].
  vm_compute. reflexivity.
Defined.

(** X6: the button of the row shown for a task removes every task with the
    identifier of that task and keeps the others in order: exactly the task
    of the row when the identifiers are distinct, and then the sequence is
    one shorter. *)
Theorem click_deleteBtn_removes (w : World) (n : nat) (t : Task)
    (Hsync : rows_in_sync w) (Hn : tasks w !! n = Some t) :
  let w' := dispatch (Click_deleteBtn n) w in
  tasks w' = filter (fun u => id u <> id t) (tasks w)
  /\ (t ∉ tasks w')
  /\ (length (tasks w') < length (tasks w))%nat
  /\ taskList w' = row_of <$> tasks w'
  /\ (NoDup (id <$> tasks w) ->
      tasks w' = delete n (tasks w)
      /\ Datatypes.S (length (tasks w')) = length (tasks w)).
Proof.
  cbn zeta. cbn [dispatch]. rewrite (row_shown w n t Hsync Hn).
  cbn [deleteBtn_click row_of].
  change (tasks (deleteTask (id t) w))
    with (filter (fun u => id u <> id t) (tasks w)).
  split; [reflexivity |].
  split.
  { intros Hin. apply list_elem_of_filter in Hin as (Hne & _). apply Hne. reflexivity. }
  split.
  { eapply (length_filter_lt _ _ t); [eapply list_elem_of_lookup_2, Hn |].
    intros H. apply H. reflexivity. }
  split; [apply (rows_in_sync_apply_op w (Remove (id t))), Hsync |].
  intros Hnd. rewrite (filter_unique _ n t Hnd Hn).
  split; [reflexivity |].
  rewrite length_delete by (rewrite Hn; eauto).
  pose proof (lookup_lt_Some _ _ _ Hn). lia.
Qed.

Lemma click_deleteBtn_removes_witness :
  let a := {| id := 1; text := js "a"; completed := false |} in
  let b := {| id := 2; text := js "b"; completed := true |} in
  let c := {| id := 1; text := js "c"; completed := true |} in
  let w := renderTasks (set_tasks [a; b; c] (boot ∅ [] [])) in
  rows_in_sync w /\ tasks w !! 2%nat = Some c
  /\ tasks (dispatch (Click_deleteBtn 2) w) = [b].
Proof.
  intros a b c w.
  assert (rows_in_sync w) as Hsync by reflexivity.
  assert (tasks w !! 2%nat = Some c) as Hn by reflexivity.
  split; [exact Hsync |]. split; [exact Hn |].
  rewrite (proj1 (click_deleteBtn_removes w 2 c Hsync Hn)).
  vm_compute. reflexivity.
Defined.

(** X7: in a session that started from a saved sequence with distinct
    safe identifiers (or from nothing saved) and that keeps the counter
    within the safe integers (the first identifier plus the number of
    events is at most 2^53), the checkbox of row [n] negates the flag of
    the task at position [n] and the button of row [n] removes the task at
    position [n], every other task staying as it is; an event on a row
    that is not shown does nothing. *)
Theorem session_row_clicks (st : gmap jsstring jsstring) (S : list Task)
    (input : jsstring) (es : list UIEvent) (n : nat)
    (Hst : holds st S) (Hvalid : NoDup (id <$> S))
    (Hsafe : Forall (fun t => JSNumber.safe_integer (id t)) S)
    (Hroom : (first_id S + Z.of_nat (length es) <= 9007199254740992)%Z) :
  exists w0,
    loadTasks (boot st input []) = Done w0
    /\ (forall t, tasks (session w0 es) !! n = Some t ->
          tasks (dispatch (Click_checkbox n) (session w0 es))
          = <[n := toggled t]> (tasks (session w0 es))
          /\ tasks (dispatch (Click_deleteBtn n) (session w0 es))
             = delete n (tasks (session w0 es)))
    /\ (tasks (session w0 es) !! n = None ->
          dispatch (Click_checkbox n) (session w0 es) = session w0 es
          /\ dispatch (Click_deleteBtn n) (session w0 es) = session w0 es).
Proof.
  destruct (loadTasks_hydrates st input [] S Hst) as (w0 & Hload & Ht & Hn0).
  specialize (Hn0 Hsafe).
  exists w0. split; [exact Hload |].
  assert (rows_in_sync (session w0 es)) as Hsync.
  { apply rows_in_sync_session. eapply rows_in_sync_loadTasks, Hload. }
  assert (ids_fresh (session w0 es)) as (Hnd & _).
  { apply session_within_safe.
    - split; rewrite Ht; [exact Hvalid |]. rewrite Hn0. apply first_id_bound.
    - rewrite Hn0. unfold first_id. destruct S as [| t S]; [cbn; lia |].
      cbn [fmap list_fmap Math_max].
      pose proof (fold_max_elem (id <$> S) (id t)) as Hin.
      change (id t :: (id <$> S)) with (id <$> t :: S) in Hin.
      apply list_elem_of_fmap in Hin as (u & Hu & Hin).
      rewrite Forall_forall in Hsafe. specialize (Hsafe u Hin).
      unfold JSNumber.safe_integer in Hsafe. lia.
    - rewrite Hn0. exact Hroom. }
  split.
  - intros t Hn. cbn [dispatch]. rewrite (row_shown _ n t Hsync Hn).
    cbn [checkbox_click deleteBtn_click row_of]. split.
    + unfold toggleTask. rewrite (list_find_unique _ n t Hnd Hn). reflexivity.
    + change (tasks (deleteTask (id t) (session w0 es)))
        with (filter (fun u => id u <> id t) (tasks (session w0 es))).
      apply filter_unique; assumption.
  - intros Hnone. cbn [dispatch]. rewrite (row_missing _ n Hsync Hnone).
    split; reflexivity.
Qed.

Lemma session_row_clicks_witness :
  let S := [{| id := 7; text := js "a"; completed := false |};
            {| id := 3; text := js "b"; completed := false |}] in
  let st : gmap jsstring jsstring := {[ js "tasks" := JSON_stringify S ]} in
  let es := [Type_text (js "c"); Click_addBtn] in
  holds st S /\ NoDup (id <$> S)
  /\ Forall (fun t => JSNumber.safe_integer (id t)) S
  /\ (first_id S + Z.of_nat (length es) <= 9007199254740992)%Z
  /\ exists w0,
       loadTasks (boot st [] []) = Done w0
       /\ (completed <$> tasks (dispatch (Click_checkbox 2) (session w0 es)))
          = [false; false; true]
       /\ ((id <$> tasks (dispatch (Click_deleteBtn 0) (session w0 es))) = [3; 8])%Z.
Proof.
  intros S st es.
  assert (holds st S) as Hst
    by (unfold holds, st; rewrite lookup_singleton_eq; reflexivity).
  assert (NoDup (id <$> S)) as Hvalid.
  { cbn. apply NoDup_cons. split; [| apply NoDup_singleton].
    intros H. apply list_elem_of_singleton in H. discriminate. }
  assert (Forall (fun t => JSNumber.safe_integer (id t)) S) as Hsafe
    by (repeat constructor; unfold JSNumber.safe_integer; cbn; lia).
  assert (first_id S + Z.of_nat (length es) <= 9007199254740992)%Z as Hroom
    by (vm_compute; discriminate).
  split; [exact Hst |]. split; [exact Hvalid |].
  split; [exact Hsafe |]. split; [exact Hroom |].
  destruct (session_row_clicks st S [] es 2 Hst Hvalid Hsafe Hroom) as (w0 & Hload & _).
  exists w0. split; [exact Hload |].
  assert (Done w0 = loadTasks (boot st [] [])) as E by (symmetry; exact Hload).
  vm_compute in E. injection E as ->. split; vm_compute; reflexivity.
Defined.

(** X8: [addTask] leaves the sequence as it is exactly when the input is
    made of white space only (the empty input included); any other input
    makes the sequence one longer. *)
Theorem addTask_unchanged_iff_blank (w : World) (input : jsstring) :
  (tasks (apply_op w (Add input)) = tasks w <-> blank input)
  /\ (length (tasks (apply_op w (Add input)))
      = if bool_decide (blank input) then length (tasks w)
        else Datatypes.S (length (tasks w))).
Proof.
  destruct (decide (JSString.trim input = [])) as [Hb | Hb].
  - assert (blank input) as Hblank by (apply trim_nil, Hb).
    assert (tasks (apply_op w (Add input)) = tasks w) as Ht.
    { cbn [apply_op]. rewrite addTask_blank by exact Hb. reflexivity. }
    split; [split; auto |].
    rewrite bool_decide_eq_true_2 by exact Hblank. now rewrite Ht.
  - assert (~ blank input) as Hblank by (intros H; apply Hb, trim_nil, H).
    rewrite (tasks_addTask_text w input Hb).
    split.
    + split; [| contradiction]. intros H.
      apply (f_equal length) in H. rewrite length_app in H. cbn in H. lia.
    + rewrite bool_decide_eq_false_2 by exact Hblank.
      rewrite length_app. cbn. lia.
Qed.

(** X9: the texts of the store stay trimmed: when every task has a text
    that is not empty and has no white space at either end, this is so
    after every run of operations and after every session of events. *)
Theorem texts_stay_trimmed (w : World) (ops : list Op) (es : list UIEvent)
    (Htexts : Forall (fun t => trimmed (text t)) (tasks w)) :
  Forall (fun t => trimmed (text t)) (tasks (run w ops))
  /\ Forall (fun t => trimmed (text t)) (tasks (session w es)).
Proof.
  assert (forall v o, Forall (fun t => trimmed (text t)) (tasks v) ->
                      Forall (fun t => trimmed (text t)) (tasks (apply_op v o)))
    as Hstep.
  { intros v o Hv. destruct o as [input | i | i].
    - destruct (decide (JSString.trim input = [])) as [Hb | Hb].
      + cbn [apply_op]. rewrite addTask_blank by exact Hb. exact Hv.
      + rewrite (tasks_addTask_text v input Hb). apply Forall_app. split; [exact Hv |].
        constructor; [| constructor]. cbn [text]. apply trimmed_trim, Hb.
    - destruct (decide (i ∈ id <$> tasks v)) as [Hin | Hin].
      + destruct (tasks_toggleTask i v Hin) as (k & t & E & Ht).
        cbn [apply_op]. rewrite Ht.
        apply list_find_Some in E as (Hk & _).
        apply Forall_insert; [exact Hv |]. cbn [text toggled].
        rewrite Forall_forall in Hv. apply Hv. eapply list_elem_of_lookup_2, Hk.
      + cbn [apply_op]. rewrite toggleTask_miss by exact Hin. exact Hv.
    - cbn [apply_op].
      change (tasks (deleteTask i v)) with (filter (fun u => id u <> i) (tasks v)).
      rewrite Forall_forall in Hv |- *. intros t Ht.
      apply list_elem_of_filter in Ht as (_ & Ht). apply Hv, Ht. }
  split.
  - revert w Htexts. induction ops as [| o ops IH]; intros w H; [exact H |].
    apply (IH (apply_op w o)), Hstep, H.
  - revert w Htexts. induction es as [| e es IH]; intros w H; [exact H |].
    apply (IH (dispatch e w)).
    destruct (dispatch_cases e w) as [[s ->] | [[o ->] | ->]];
      [exact H | apply Hstep, H | exact H].
Qed.

Lemma texts_stay_trimmed_witness :
  let w := boot ∅ [] [] in
  let ops := [Add (js "  a b  "); Add (js "   "); Toggle 1; Add (0xA0%N :: js "c")] in
  Forall (fun t => trimmed (text t)) (tasks w)
  /\ Forall (fun t => trimmed (text t)) (tasks (run w ops))
  /\ (text <$> tasks (run w ops)) = [js "a b"; js "c"].
Proof.
  intros w ops.
  assert (Forall (fun t => trimmed (text t)) (tasks w)) as H by constructor.
  split; [exact H |].
  split; [exact (proj1 (texts_stay_trimmed w ops [] H)) |].
  vm_compute. reflexivity.
Defined.

(** X10: the script writes the slot [tasks] and no other: every other key
    of the storage holds after a session what it held before. *)
Theorem storage_frame (w : World) (es : list UIEvent) (k : jsstring)
    (Hk : k <> js "tasks") :
  localStorage (session w es) !! k = localStorage w !! k.
Proof.
  assert (forall v o, localStorage (apply_op v o) !! k = localStorage v !! k) as Hstep.
  { intros v o. destruct (takes_effect v o) eqn:E.
    - destruct (apply_op_effect v o E) as (w1 & -> & Hs & _).
      rewrite <- Hs.
      change (localStorage (renderTasks (saveTasks w1)))
        with (<[js "tasks" := JSON_stringify (tasks w1)]> (localStorage w1)).
      apply lookup_insert_ne. intros H. apply Hk. symmetry. exact H.
    - destruct (apply_op_no_effect v o E) as (_ & _ & -> & _). reflexivity. }
  revert w. induction es as [| e es IH]; intros w; [reflexivity |].
  change (session w (e :: es)) with (session (dispatch e w) es).
  rewrite IH.
  destruct (dispatch_cases e w) as [[s ->] | [[o ->] | ->]];
    [reflexivity | apply Hstep | reflexivity].
Qed.

Lemma storage_frame_witness :
  let st : gmap jsstring jsstring := {[ js "theme" := js "dark" ]} in
  let es := [Type_text (js "a"); Click_addBtn; Click_checkbox 0; Click_deleteBtn 0] in
  js "theme" <> js "tasks"
  /\ localStorage (session (boot st [] []) es) !! js "theme" = Some (js "dark")
  /\ localStorage (session (boot st [] []) es) !! js "tasks" = Some (js "[]").
Proof.
  intros st es.
  assert (js "theme" <> js "tasks") as Hk by discriminate.
  split; [exact Hk |]. split.
  - rewrite (storage_frame (boot st [] []) es (js "theme") Hk).
    unfold st. cbn [localStorage boot]. apply lookup_singleton_eq.
  - vm_compute. reflexivity.
Defined.

(** X11: when the slot holds the serialization of the sequence in memory
    and the identifiers are safe integers, a reload restores the sequence
    and shows it, leaves the storage as it is, and restarts [nextId] at one
    more than the greatest identifier left (1 for the empty sequence).
    When the sequence is not empty and its identifiers were below the
    [nextId] of the run before, the new [nextId] is not above that one: it
    is lower when the tasks with the greatest identifiers were removed, and
    their identifiers are then given again. *)
Theorem reload_restores (w : World) (input : jsstring)
    (Hsaved : persisted w)
    (Hsafe : Forall (fun t => JSNumber.safe_integer (id t)) (tasks w)) :
  exists w',
    reload w input = Done w'
    /\ tasks w' = tasks w
    /\ taskList w' = row_of <$> tasks w
    /\ localStorage w' = localStorage w
    /\ nextId w' = first_id (tasks w)
    /\ (tasks w <> [] -> Forall (fun t => (id t < nextId w)%Z) (tasks w) ->
        (nextId w' <= nextId w)%Z)
    /\ (NoDup (id <$> tasks w) -> ids_fresh w').
Proof.
  unfold reload.
  assert (holds (localStorage w) (tasks w)) as Hh
    by (unfold holds; rewrite Hsaved; reflexivity).
  destruct (loadTasks_hydrates (localStorage w) input [] (tasks w) Hh)
    as (w' & Hload & Ht & Hn).
  specialize (Hn Hsafe).
  exists w'. split; [exact Hload |]. split; [exact Ht |].
  split; [rewrite (rows_in_sync_loadTasks _ _ _ Hload), Ht; reflexivity |].
  split; [apply (loadTasks_storage _ _ Hload) |].
  split; [exact Hn |].
  split.
  - intros Hne Hlt. rewrite Hn. unfold first_id.
    destruct (tasks w) as [| t ts]; [contradiction |].
    cbn [fmap list_fmap Math_max].
    pose proof (fold_max_elem (id <$> ts) (id t)) as Hin.
    change (id t :: (id <$> ts)) with (id <$> t :: ts) in Hin.
    apply list_elem_of_fmap in Hin as (u & Hu & Hin).
    rewrite Forall_forall in Hlt. specialize (Hlt u Hin). lia.
  - intros Hnd. split; rewrite Ht; [exact Hnd |]. rewrite Hn. apply first_id_bound.
Qed.

Lemma reload_restores_witness :
  let w := run (boot ∅ [] []) [Add (js "a"); Add (js "b"); Remove 2] in
  persisted w
  /\ Forall (fun t => JSNumber.safe_integer (id t)) (tasks w)
  /\ nextId w = 3%Z
  /\ exists w', reload w [] = Done w'
                /\ tasks w' = tasks w
                /\ nextId w' = 2%Z.
Proof.
  intros w.
  assert (persisted w) as Hp by (unfold persisted; vm_compute; reflexivity).
  assert (Forall (fun t => JSNumber.safe_integer (id t)) (tasks w)) as Hsafe
    by (repeat constructor; unfold JSNumber.safe_integer; cbn; lia).
  split; [exact Hp |]. split; [exact Hsafe |]. split; [reflexivity |].
  destruct (reload_restores w [] Hp Hsafe) as (w' & Hload & Ht & _ & _ & Hn & _).
  exists w'. split; [exact Hload |]. split; [exact Ht |].
  rewrite Hn. vm_compute. reflexivity.
Defined.

(** X12: [deleteTask] with an identifier no task has leaves the sequence as
    it is, and still writes the slot and renders the list (where
    [toggleTask] with such an identifier does nothing at all). *)
Theorem deleteTask_absent (w : World) (i : Z) (Habsent : i ∉ id <$> tasks w) :
  tasks (deleteTask i w) = tasks w
  /\ calls (deleteTask i w)
     = calls w ++ [SetItem (js "tasks") (JSON_stringify (tasks w));
                   Render (row_of <$> tasks w)]
  /\ persisted (deleteTask i w)
  /\ toggleTask i w = w.
Proof.
  assert (tasks (deleteTask i w) = tasks w) as Ht.
  { change (tasks (deleteTask i w)) with (filter (fun u => id u <> i) (tasks w)).
    apply filter_all, Forall_forall. intros u Hu Hid. apply Habsent.
    rewrite <- Hid. apply list_elem_of_fmap_2, Hu. }
  split; [exact Ht |].
  split.
  { destruct (save_render_pipeline (set_tasks (filter (fun u => id u <> i) (tasks w)) w))
      as (Hc & _).
    change (renderTasks (saveTasks (set_tasks (filter (fun u => id u <> i) (tasks w)) w)))
      with (deleteTask i w) in Hc.
    rewrite Hc, Ht. reflexivity. }
  split; [apply persisted_save_render | apply toggleTask_miss, Habsent].
Qed.

Lemma deleteTask_absent_witness :
  let w := set_tasks [{| id := 1; text := js "a"; completed := false |}] (boot ∅ [] []) in
  (5%Z ∉ id <$> tasks w)
  /\ tasks (deleteTask 5 w) = tasks w
  /\ persisted (deleteTask 5 w)
  /\ ~ persisted (toggleTask 5 w).
Proof.
  intros w.
  assert (5%Z ∉ id <$> tasks w) as H.
  { cbn. intros Hin. apply list_elem_of_singleton in Hin. discriminate. }
  split; [exact H |].
  destruct (deleteTask_absent w 5 H) as (H1 & _ & H3 & H4).
  split; [exact H1 |]. split; [exact H3 |].
  rewrite H4. unfold persisted. vm_compute. discriminate.
Defined.

(** X13: when [nextId] is a safe integer above every identifier of the
    sequence, adding a task and then removing the identifier it was given
    brings the sequence back to what it was, while [nextId] stays one
    higher, above every identifier: the next add does not give the removed
    identifier again. *)
Theorem add_then_remove (w : World) (input : jsstring)
    (Htext : JSString.trim input <> [])
    (Hsafe : JSNumber.safe_integer (nextId w))
    (Hbelow : Forall (fun t => (id t < nextId w)%Z) (tasks w)) :
  let w1 := apply_op w (Add input) in
  let w2 := apply_op w1 (Remove (nextId w)) in
  tasks w2 = tasks w
  /\ nextId w2 = (nextId w + 1)%Z
  /\ Forall (fun t => (id t < nextId w2 - 1)%Z) (tasks w2).
Proof.
  cbn zeta.
  assert (tasks (apply_op (apply_op w (Add input)) (Remove (nextId w))) = tasks w) as Ht.
  { cbn [apply_op].
    change (tasks (deleteTask (nextId w) (addTask (set_taskInput_value input w))))
      with (filter (fun u => id u <> nextId w)
              (tasks (apply_op w (Add input)))).
    rewrite (tasks_addTask_text w input Htext), filter_app, filter_cons.
    rewrite decide_False by (intros H; apply H; reflexivity).
    rewrite filter_nil, app_nil_r. apply filter_all.
    eapply Forall_impl; [exact Hbelow |]. cbn. intros t Hlt. lia. }
  assert (nextId (apply_op (apply_op w (Add input)) (Remove (nextId w)))
          = (nextId w + 1)%Z) as Hn.
  { rewrite !nextId_apply_op. cbn [adds].
    rewrite decide_False by exact Htext. apply add_one_safe, Hsafe. }
  split; [exact Ht |]. split; [exact Hn |].
  rewrite Ht, Hn. eapply Forall_impl; [exact Hbelow |]. cbn. intros t Hlt. lia.
Qed.

Lemma add_then_remove_witness :
  let w := set_nextId 3 (set_tasks [{| id := 2; text := js "a"; completed := false |}]
                           (boot ∅ [] [])) in
  JSString.trim (js " b") <> []
  /\ JSNumber.safe_integer (nextId w)
  /\ Forall (fun t => (id t < nextId w)%Z) (tasks w)
  /\ tasks (apply_op (apply_op w (Add (js " b"))) (Remove 3)) = tasks w
  /\ nextId (apply_op (apply_op w (Add (js " b"))) (Remove 3)) = 4%Z.
Proof.
  intros w.
  assert (JSString.trim (js " b") <> []) as H1 by (vm_compute; discriminate).
  assert (JSNumber.safe_integer (nextId w)) as H0
    by (unfold JSNumber.safe_integer; cbn; lia).
  assert (Forall (fun t => (id t < nextId w)%Z) (tasks w)) as H2
    by (constructor; [cbn; lia | constructor]).
  split; [exact H1 |]. split; [exact H0 |]. split; [exact H2 |].
  destruct (add_then_remove w (js " b") H1 H0 H2) as (Ht & Hn & _).
  split; [exact Ht | exact Hn].
Defined.

(** X14: two [deleteTask] calls give the same store, the same storage and
    the same list in either order: what is left are the tasks with neither
    identifier. *)
Theorem deleteTask_commute (w : World) (i j : Z) :
  let a := deleteTask i (deleteTask j w) in
  let b := deleteTask j (deleteTask i w) in
  tasks a = tasks b
  /\ tasks a = filter (fun t => id t <> i /\ id t <> j) (tasks w)
  /\ nextId a = nextId b
  /\ localStorage a = localStorage b
  /\ taskList a = taskList b
  /\ taskInput_value a = taskInput_value b.
Proof.
  cbn zeta.
  assert (forall x y, tasks (deleteTask x (deleteTask y w))
                      = filter (fun t => id t <> x /\ id t <> y) (tasks w)) as Hf.
  { intros x y.
    change (tasks (deleteTask x (deleteTask y w)))
      with (filter (fun t => id t <> x) (filter (fun t => id t <> y) (tasks w))).
    apply list_filter_filter. }
  assert (tasks (deleteTask i (deleteTask j w)) = tasks (deleteTask j (deleteTask i w)))
    as Ht.
  { rewrite !Hf. apply list_filter_iff. intros t. tauto. }
  split; [exact Ht |]. split; [apply Hf |]. split; [reflexivity |].
  split.
  { change (localStorage (deleteTask i (deleteTask j w)))
      with (<[js "tasks" := JSON_stringify (tasks (deleteTask i (deleteTask j w)))]>
              (<[js "tasks" := JSON_stringify (tasks (deleteTask j w))]> (localStorage w))).
    change (localStorage (deleteTask j (deleteTask i w)))
      with (<[js "tasks" := JSON_stringify (tasks (deleteTask j (deleteTask i w)))]>
              (<[js "tasks" := JSON_stringify (tasks (deleteTask i w))]> (localStorage w))).
    rewrite !insert_insert_eq, Ht. reflexivity. }
  split; [| reflexivity].
  change (taskList (deleteTask i (deleteTask j w)))
    with (fold_left (fun ul task => ul ++ [row_of task])
            (tasks (deleteTask i (deleteTask j w))) []).
  rewrite Ht. reflexivity.
Qed.

(** X15: [toggleTask] after [deleteTask] with the same identifier does
    nothing at all, and [deleteTask] after [toggleTask] with the same
    identifier leaves the sequence [deleteTask] alone leaves. *)
Theorem toggle_delete_same_id (w : World) (i : Z) :
  toggleTask i (deleteTask i w) = deleteTask i w
  /\ tasks (deleteTask i (toggleTask i w)) = tasks (deleteTask i w).
Proof.
  split.
  - apply toggleTask_miss. intros Hin.
    apply list_elem_of_fmap in Hin as (t & Hid & Hin).
    change (tasks (deleteTask i w)) with (filter (fun u => id u <> i) (tasks w)) in Hin.
    apply list_elem_of_filter in Hin as (Hne & _). apply Hne. symmetry. exact Hid.
  - change (tasks (deleteTask i (toggleTask i w)))
      with (filter (fun u => id u <> i) (tasks (toggleTask i w))).
    change (tasks (deleteTask i w)) with (filter (fun u => id u <> i) (tasks w)).
    destruct (decide (i ∈ id <$> tasks w)) as [Hin | Hin].
    + destruct (tasks_toggleTask i w Hin) as (k & t & E & ->).
      apply list_find_Some in E as (Hk & Hid & _).
      apply (filter_insert_same_id _ k t); [exact Hk | exact Hid | exact Hid].
    + rewrite toggleTask_miss by exact Hin. reflexivity.
Qed.

(** X16: the text [saveTasks] writes determines the sequence: two
    sequences with the same serialization are equal. *)
Theorem JSON_stringify_inj (S1 S2 : list Task) :
  JSON_stringify S1 = JSON_stringify S2 <-> S1 = S2.
Proof.
  split; [| intros ->; reflexivity].
  intros H.
  pose proof (TaskJSON.JSON_parse_stringify S1) as H1.
  rewrite H, TaskJSON.JSON_parse_stringify in H1.
  injection H1 as H1.
  pose proof (TaskJSON.as_Tasks_task_json S1) as E1.
  rewrite <- H1, TaskJSON.as_Tasks_task_json in E1.
  injection E1 as ->. reflexivity.
Qed.

(** X17: two [toggleTask] calls with different identifiers give the same
    store, the same storage and the same list in either order. *)
Theorem toggleTask_commute (w : World) (i j : Z) (Hne : i <> j) :
  let a := toggleTask i (toggleTask j w) in
  let b := toggleTask j (toggleTask i w) in
  tasks a = tasks b
  /\ nextId a = nextId b
  /\ localStorage a = localStorage b
  /\ taskList a = taskList b.
Proof.
  cbn zeta.
  destruct (decide (i ∈ id <$> tasks w)) as [Hi | Hi].
  2: { rewrite (toggleTask_miss i w Hi).
       rewrite (toggleTask_miss i (toggleTask j w))
         by (rewrite ids_toggleTask; exact Hi).
       repeat split. }
  destruct (decide (j ∈ id <$> tasks w)) as [Hj | Hj].
  2: { rewrite (toggleTask_miss j w Hj).
       rewrite (toggleTask_miss j (toggleTask i w))
         by (rewrite ids_toggleTask; exact Hj).
       repeat split. }
  assert (i ∈ id <$> tasks (toggleTask j w)) as Hi' by (rewrite ids_toggleTask; exact Hi).
  assert (j ∈ id <$> tasks (toggleTask i w)) as Hj' by (rewrite ids_toggleTask; exact Hj).
  assert (tasks (toggleTask i (toggleTask j w)) = tasks (toggleTask j (toggleTask i w)))
    as Ht.
  { destruct (tasks_toggleTask i w Hi) as (k & t & Ei & Ti).
    destruct (tasks_toggleTask j w Hj) as (k' & t' & Ej & Tj).
    destruct (tasks_toggleTask i _ Hi') as (k2 & t2 & Ei2 & Ti2).
    destruct (tasks_toggleTask j _ Hj') as (k3 & t3 & Ej3 & Tj3).
    pose proof Ei as (Hk & Hti & _)%list_find_Some.
    pose proof Ej as (Hk' & Htj & _)%list_find_Some.
    rewrite Tj, (list_find_toggled_other _ i j k' t' Hne Hk' Htj), Ei in Ei2.
    injection Ei2 as <- <-.
    rewrite Ti, (list_find_toggled_other _ j i k t (not_eq_sym Hne) Hk Hti), Ej in Ej3.
    injection Ej3 as <- <-.
    rewrite Ti2, Tj3, Ti, Tj.
    apply list_insert_insert_ne. intros ->. rewrite Hk in Hk'. congruence. }
  split; [exact Ht |].
  split; [rewrite !nextId_toggleTask; reflexivity |].
  destruct (toggleTask_pipeline i _ Hi') as (_ & Sa & La).
  destruct (toggleTask_pipeline j _ Hj') as (_ & Sb & Lb).
  destruct (toggleTask_pipeline j w Hj) as (_ & Sj & _).
  destruct (toggleTask_pipeline i w Hi) as (_ & Si & _).
  split.
  - rewrite Sa, Sb, Sj, Si, !insert_insert_eq, Ht. reflexivity.
  - rewrite La, Lb, Ht. reflexivity.
Qed.

Lemma toggleTask_commute_witness :
  let w := set_tasks [{| id := 1; text := js "a"; completed := false |};
                      {| id := 2; text := js "b"; completed := true |}]
                     (boot ∅ [] []) in
  (1 <> 2)%Z
  /\ tasks (toggleTask 1 (toggleTask 2 w)) = tasks (toggleTask 2 (toggleTask 1 w))
  /\ (completed <$> tasks (toggleTask 1 (toggleTask 2 w))) = [true; false].
Proof.
  intros w.
  assert (1 <> 2)%Z as H by discriminate.
  split; [exact H |].
  split; [exact (proj1 (toggleTask_commute w 1 2 H)) |].
  vm_compute. reflexivity.
Defined.

(** X18: after [addTask] with a text that is not blank the input is empty,
    the list is one row longer than the sequence was, and its last row
    shows the trimmed text, unchecked, with both handlers on the identifier
    the task was given. *)
Theorem addTask_shows_new_row (w : World) (input : jsstring)
    (Htext : JSString.trim input <> []) :
  let w' := apply_op w (Add input) in
  taskInput_value w' = []
  /\ length (taskList w') = Datatypes.S (length (tasks w))
  /\ last (taskList w')
     = Some {| li_completed := false; checkbox_checked := false;
               span_textContent := JSString.trim input;
               checkbox_click := nextId w; deleteBtn_click := nextId w |}
  /\ take (length (tasks w)) (taskList w') = row_of <$> tasks w.
Proof.
  cbn zeta.
  assert (taskList (apply_op w (Add input)) = row_of <$> tasks (apply_op w (Add input)))
    as Hrows.
  { cbn [apply_op]. rewrite addTask_text by exact Htext. apply rows_in_sync_render. }
  split; [cbn [apply_op]; rewrite addTask_text by exact Htext; reflexivity |].
  rewrite Hrows, (tasks_addTask_text w input Htext), fmap_app.
  split; [rewrite length_app, length_fmap; cbn; lia |].
  split; [apply last_snoc |].
  rewrite take_app_length'; [reflexivity | symmetry; apply length_fmap].
Qed.

Lemma addTask_shows_new_row_witness :
  JSString.trim (js " Buy milk ") <> []
  /\ taskInput_value (apply_op (boot ∅ [] []) (Add (js " Buy milk "))) = []
  /\ last (taskList (apply_op (boot ∅ [] []) (Add (js " Buy milk "))))
     = Some {| li_completed := false; checkbox_checked := false;
               span_textContent := js "Buy milk";
               checkbox_click := 1; deleteBtn_click := 1 |}.
Proof.
  assert (JSString.trim (js " Buy milk ") <> []) as H by (vm_compute; discriminate).
  split; [exact H |].
  destruct (addTask_shows_new_row (boot ∅ [] []) (js " Buy milk ") H) as (H1 & _ & H3 & _).
  split; [exact H1 |]. rewrite H3. vm_compute. reflexivity.
Defined.


